(** * openapi-codegen: the generator pipeline, its parser and writer, the
    stub template, the string utilities, the command line and the example
    workers

    A shallow embedding of

    - [src/utils/string-utils.ts]   ([sanitizeIdentifier], [toCamelCase],
                                     [toPascalCase], [toKebabCase],
                                     [toSnakeCase], [pluralize]),
    - [src/utils/file-utils.ts]     ([readFile], [writeFile],
                                     [ensureDirectoryExists],
                                     [writeGeneratedFiles], [fileExists]),
    - [src/generator/parser.ts]     ([parseOpenApiYaml]),
    - [src/generator/index.ts]      ([generateFromYaml], [enhanceWithAI],
                                     [buildAIPrompt], [callAIAPI],
                                     [findOperation], [generateBasicStub]),
    - [src/config/index.ts]         ([defaultConfig]),
    - [src/index.ts]                ([main]),
    - [examples/enhanced-worker.ts] ([routeRequest], [checkRateLimit],
                                     [cleanupRateLimit], [validateAuth],
                                     [handleCors]),
    - [examples/usage-examples.ts]  ([customWorker]),

    followed by the properties proved about them.  JavaScript exceptions are
    an explicit error result, the file system, the console and the worker's
    module-level rate-limit table are explicit state. *)

From Stdlib Require Import String Ascii List ZArith NArith QArith Bool Lia.
From stdpp Require Import base option list gmap strings pretty.

Local Open Scope list_scope.
Local Open Scope string_scope.

(** ** Characters and strings *)

(** The double quote (code 34) and the line feed (code 10). *)
Definition dquote : ascii := Ascii false true false false false true false false.
Definition linefeed : ascii := Ascii false true false true false false false false.
Definition dq : string := String dquote EmptyString.
Definition nl : string := String linefeed EmptyString.

(** [s.split(sep)] for a one-character separator: never the empty list. *)
Fixpoint split_on (sep : ascii) (s : string) : list string :=
  match s with
  | EmptyString => [EmptyString]
  | String c s' =>
      if Ascii.eqb c sep then EmptyString :: split_on sep s'
      else match split_on sep s' with
           | h :: t => String c h :: t
           | [] => [String c EmptyString]
           end
  end.

(** [x || d] for a string [x]: the empty string is falsy. *)
Definition str_or (x d : string) : string :=
  if String.eqb x "" then d else x.

(** [s.startsWith(p)] with what follows the prefix. *)
Fixpoint strip_prefix (p s : string) : option string :=
  match p with
  | EmptyString => Some s
  | String a p' =>
      match s with
      | String b s' => if Ascii.eqb a b then strip_prefix p' s' else None
      | EmptyString => None
      end
  end.

(** ** JavaScript values

    What [yaml.load] and [response.json()] hand back: the code receives them
    untyped (the [as OpenAPISpec] cast checks nothing). *)

Inductive JsNumber : Type :=
| Finite (q : Q)
| NaN
| Infinity (negative : bool).

#[warnings="-register-all"]
Inductive JsValue : Type :=
| JUndefined
| JNull
| JBool (b : bool)
| JNum (n : JsNumber)
| JStr (s : string)
| JArr (xs : list JsValue)
| JObj (fields : list (string * JsValue)).

Definition number_truthy (n : JsNumber) : bool :=
  match n with
  | Finite q => negb (Qeq_bool q 0)
  | NaN => false
  | Infinity _ => true
  end.

(** ToBoolean. *)
Definition truthy (v : JsValue) : bool :=
  match v with
  | JUndefined | JNull => false
  | JBool b => b
  | JNum n => number_truthy n
  | JStr s => negb (String.eqb s "")
  | JArr _ | JObj _ => true
  end.

(** Own property of an object literal; keys are unique in a loaded
    document, the first binding is the one read. *)
Fixpoint assoc (k : string) (fields : list (string * JsValue)) : option JsValue :=
  match fields with
  | [] => None
  | (k', v) :: rest => if String.eqb k k' then Some v else assoc k rest
  end.

(** [v.key] on a value that is neither [null] nor [undefined], for a key
    that is no array index and no builtin member ([openapi], [choices],
    [message], [content], [paths], ...): only objects have it. *)
Definition getProp (v : JsValue) (key : string) : JsValue :=
  match v with
  | JObj fields => match assoc key fields with Some x => x | None => JUndefined end
  | _ => JUndefined
  end.

Definition nullish (v : JsValue) : bool :=
  match v with JUndefined | JNull => true | _ => false end.

(** [v?.key]. *)
Definition optProp (v : JsValue) (key : string) : JsValue :=
  if nullish v then JUndefined else getProp v key.

(** [v?.[0]]: first element of an array, first character of a string, the
    property ["0"] of an object. *)
Definition optIndex0 (v : JsValue) : JsValue :=
  match v with
  | JArr (x :: _) => x
  | JStr (String c _) => JStr (String c EmptyString)
  | JObj fields => match assoc "0" fields with Some x => x | None => JUndefined end
  | _ => JUndefined
  end.

(** ** Errors *)

Inductive ErrorKind : Type :=
| PlainError            (* new Error(...) and library errors *)
| TypeError
| SyntaxError
| BrokenReference
| UnsupportedReference.

Record JsError : Type := mkJsError { kind : ErrorKind; message : string }.

Definition newError (msg : string) : JsError := mkJsError PlainError msg.

Inductive result (A : Type) : Type :=
| Ok (a : A)
| Err (e : JsError).
Arguments Ok {A} a.
Arguments Err {A} e.

(** ** [src/utils/string-utils.ts] *)

Module StringUtils.

(** A JavaScript string is a sequence of UTF-16 code units; the regular
    expressions of this file carry no [u] flag and work unit by unit. *)
Definition jsstring : Type := list N.

Definition unit_of_ascii (c : ascii) : N := N_of_ascii c.

Definition units (s : string) : jsstring := map unit_of_ascii (list_ascii_of_string s).

Definition underscore : N := 95%N.

(** [\d] *)
Definition isDigit (c : N) : bool := (48 <=? c)%N && (c <=? 57)%N.

(** [[a-zA-Z0-9_]] *)
Definition isIdentifierUnit (c : N) : bool :=
  ((97 <=? c)%N && (c <=? 122)%N)
  || ((65 <=? c)%N && (c <=? 90)%N)
  || isDigit c
  || (c =? underscore)%N.

(** [.replace(/[^a-zA-Z0-9_]/g, '_')] *)
Definition replaceNonIdentifier (s : jsstring) : jsstring :=
  map (fun c => if isIdentifierUnit c then c else underscore) s.

(** [.replace(/^(\d)/, '_$1')] *)
Definition prefixLeadingDigit (s : jsstring) : jsstring :=
  match s with
  | c :: _ => if isDigit c then underscore :: s else s
  | [] => []
  end.

(** [.replace(/^$/, '_empty')] *)
Definition replaceEmpty (s : jsstring) : jsstring :=
  match s with
  | [] => units "_empty"
  | _ => s
  end.

Definition sanitizeIdentifier (name : jsstring) : jsstring :=
  replaceEmpty (prefixLeadingDigit (replaceNonIdentifier name)).

End StringUtils.

(** ** The world of a generation run

    The files and the directories of the disk, and the lines printed on
    the console. *)

Record FileSystem : Type := mkFS {
  fs_files : gmap string string;
  fs_dirs : gset string
}.

Inductive Level : Type := LogLevel | WarnLevel | ErrorLevel.

Record World : Type := mkWorld {
  fs : FileSystem;
  console : list (Level * string)
}.

(** A computation that may throw and may change its state [S]. *)
Definition Eff (S A : Type) : Type := S -> result A * S.

Definition ret {S A : Type} (a : A) : Eff S A := fun w => (Ok a, w).

Definition throw {S A : Type} (e : JsError) : Eff S A := fun w => (Err e, w).

Definition lift {S A : Type} (r : result A) : Eff S A := fun w => (r, w).

Definition bind {S A B : Type} (m : Eff S A) (k : A -> Eff S B) : Eff S B :=
  fun w =>
    match m w with
    | (Ok a, w') => k a w'
    | (Err e, w') => (Err e, w')
    end.

(** [try { m } catch (error) { h error }] *)
Definition try_catch {S A : Type} (m : Eff S A) (h : JsError -> Eff S A) : Eff S A :=
  fun w =>
    match m w with
    | (Ok a, w') => (Ok a, w')
    | (Err e, w') => h e w'
    end.

(** The generator's computations run in the world of a generation run. *)
Definition M (A : Type) : Type := Eff World A.

Notation "'let!' x ':=' m 'in' k" := (bind m (fun x => k))
  (at level 10, x name, m at level 100, k at level 200,
   format "'let!'  x  ':='  m  'in' '//' k").
Notation "'run!' m 'in' k" := (bind m (fun _ => k))
  (at level 10, m at level 100, k at level 200,
   format "'run!'  m  'in' '//' k").

Definition console_print (l : Level) (line : string) : M unit :=
  fun w => (Ok tt, mkWorld (fs w) (app (console w) [(l, line)])).

Definition console_log : string -> M unit := console_print LogLevel.
Definition console_warn : string -> M unit := console_print WarnLevel.
Definition console_error : string -> M unit := console_print ErrorLevel.

(** *** Node's [fs] and [path], as far as the code calls them *)

(** [fs.readFile(p, 'utf-8')] and [readFileSync(p, 'utf8')]. *)
Definition fs_readFile (p : string) : M string :=
  fun w =>
    match fs_files (fs w) !! p with
    | Some data => (Ok data, w)
    | None =>
        if decide (p ∈ fs_dirs (fs w))
        then (Err (newError "EISDIR: illegal operation on a directory, read"), w)
        else (Err (newError ("ENOENT: no such file or directory, open '" ++ p ++ "'")), w)
    end.

(** [fs.mkdir(p, { recursive: true })]: succeeds on an existing directory,
    fails on an existing file.  Only [p] itself is recorded, not its
    ancestors. *)
Definition fs_mkdir (p : string) : M unit :=
  fun w =>
    match fs_files (fs w) !! p with
    | Some _ => (Err (newError ("EEXIST: file already exists, mkdir '" ++ p ++ "'")), w)
    | None => (Ok tt, mkWorld (mkFS (fs_files (fs w)) ({[p]} ∪ fs_dirs (fs w))) (console w))
    end.

(** [fs.writeFile(p, data, 'utf-8')]: creates or replaces a file, fails on a
    directory. *)
Definition fs_writeFile (p data : string) : M unit :=
  fun w =>
    if decide (p ∈ fs_dirs (fs w))
    then (Err (newError ("EISDIR: illegal operation on a directory, open '" ++ p ++ "'")), w)
    else (Ok tt, mkWorld (mkFS (<[p := data]> (fs_files (fs w))) (fs_dirs (fs w))) (console w)).

(** The backwards scan of POSIX [path.dirname]: [l] holds the characters at
    indices [i], [i-1], ..., [1]; the result is the index of the slash that
    ends the directory part. *)
Fixpoint dirname_end (l : list ascii) (i : nat) (matchedSlash : bool) : option nat :=
  match l with
  | [] => None
  | c :: l' =>
      if Ascii.eqb c "/"
      then if matchedSlash then dirname_end l' (Nat.pred i) true else Some i
      else dirname_end l' (Nat.pred i) false
  end.

Definition dirname (p : string) : string :=
  match p with
  | EmptyString => "."
  | String c0 rest =>
      let hasRoot := Ascii.eqb c0 "/" in
      match dirname_end (rev (list_ascii_of_string rest)) (String.length rest) true with
      | None => if hasRoot then "/" else "."
      | Some e => if hasRoot && Nat.eqb e 1 then "//" else String.substring 0 e p
      end
  end.

(** ** [src/config/types.ts] *)

Record Config : Type := mkConfig {
  apiUrl : string;
  apiKey : string;
  outputDir : string;
  generateCloudflareWorker : bool
}.

Record GeneratedFile : Type := mkGeneratedFile {
  path : string;
  content : string;
  description : string
}.

(** ** [src/utils/file-utils.ts] *)

Definition ensureDirectoryExists (dirPath : string) : M unit :=
  try_catch (fs_mkdir dirPath)
    (fun error =>
       throw (newError ("Error creating directory at " ++ dirPath ++ ": " ++ message error))).

Definition writeFile (filePath data : string) : M unit :=
  try_catch
    (run! ensureDirectoryExists (dirname filePath) in
     fs_writeFile filePath data)
    (fun error =>
       throw (newError ("Error writing file at " ++ filePath ++ ": " ++ message error))).

(** The body of [for (const file of files)]. *)
Fixpoint writeEach (files : list GeneratedFile) (outputDir : string) : M unit :=
  match files with
  | [] => ret tt
  | file :: rest =>
      let fullPath := outputDir ++ "/" ++ path file in
      run! writeFile fullPath (content file) in
      run! console_log ("Generated: " ++ path file ++ " - " ++ description file) in
      writeEach rest outputDir
  end.

Definition writeGeneratedFiles (files : list GeneratedFile) (outputDir : string) : M unit :=
  run! ensureDirectoryExists outputDir in
  writeEach files outputDir.

(** ** [src/generator/parser.ts] and [generateFromYaml] of
    [src/generator/index.ts] *)

Section Pipeline.

(** [yaml.load] of js-yaml: a value, or a [YAMLException]. *)
Variable yaml_load : string -> result JsValue.

(** Modelled from the spec: [generateTypes] and [generateStubs] are
    imported from [./types-generator] and [./stubs-generator], which are
    absent.  They are called synchronously with the parsed document (and the
    configuration) and return artifacts or throw; "given the same input
    document, the engine produces byte-identical output on every run"
    (4.3), so they are functions of their arguments. *)
Variable generateTypes : JsValue -> result GeneratedFile.
Variable generateStubs : JsValue -> Config -> result (list GeneratedFile).

Definition parseOpenApiYaml (filePath : string) : M JsValue :=
  try_catch
    (let! fileContents := fs_readFile filePath in
     let! parsedData := lift (yaml_load fileContents) in
     if negb (truthy parsedData) || negb (truthy (getProp parsedData "openapi"))
     then throw (newError "Invalid OpenAPI YAML file: Missing required fields.")
     else ret parsedData)
    (fun error =>
       throw (newError ("Failed to parse OpenAPI YAML file: " ++ message error))).

Definition generateFromYaml (config : Config) (yamlFilePath : string)
  : M (list GeneratedFile) :=
  try_catch
    (run! console_log ("Parsing OpenAPI file: " ++ yamlFilePath) in
     let! spec := parseOpenApiYaml yamlFilePath in
     run! console_log "Generating TypeScript types..." in
     let! typesFile := lift (generateTypes spec) in
     run! console_log "Generating API client stubs..." in
     let! stubFiles := lift (generateStubs spec config) in
     let allFiles := typesFile :: stubFiles in
     run! writeGeneratedFiles allFiles (outputDir config) in
     run! console_log ("✅ Successfully generated " ++ pretty (length allFiles)
                       ++ " files in " ++ outputDir config) in
     ret allFiles)
    (fun error =>
       run! console_error ("❌ Generation failed: " ++ message error) in
       throw error).

End Pipeline.

(** ** The Reference Resolver (spec 4.1) *)

Module Resolver.

(** Modelled from the spec: the resolver belongs to [./types-generator],
    which [src/generator/index.ts] imports and which is absent.  "Only
    intra-document pointers are supported ...; external-file references
    fail with UnsupportedReference.  Resolution follows the pointer
    segments into the document tree; a missing segment fails with
    BrokenReference", each "reported with the offending pointer string". *)
Definition pointerSegments (ref : string) : option (list string) :=
  match strip_prefix "#/" ref with
  | Some rest => Some (split_on "/" rest)
  | None => None
  end.

Fixpoint follow (segments : list string) (node : JsValue) : option JsValue :=
  match segments with
  | [] => Some node
  | seg :: segments' =>
      match node with
      | JObj fields =>
          match assoc seg fields with
          | Some child => follow segments' child
          | None => None
          end
      | _ => None
      end
  end.

Definition brokenReference (ref : string) : JsError := mkJsError BrokenReference ref.
Definition unsupportedReference (ref : string) : JsError := mkJsError UnsupportedReference ref.

Definition resolve (root : JsValue) (ref : string) : result JsValue :=
  match pointerSegments ref with
  | None => Err (unsupportedReference ref)
  | Some segments =>
      match follow segments root with
      | Some node => Ok node
      | None => Err (brokenReference ref)
      end
  end.

(** Modelled from the spec: the [$ref] strings of a subtree, in declaration
    order ("all iteration over schema/operation collections preserves
    declaration order"). *)
Fixpoint collectRefs (v : JsValue) : list string :=
  match v with
  | JObj fields =>
      (fix inFields (l : list (string * JsValue)) : list string :=
         match l with
         | [] => []
         | (k, x) :: rest =>
             app (match x with
                  | JStr ref => if String.eqb k "$ref" then [ref] else []
                  | _ => collectRefs x
                  end)
                 (inFields rest)
         end) fields
  | JArr xs =>
      (fix inItems (l : list JsValue) : list string :=
         match l with
         | [] => []
         | x :: rest => app (collectRefs x) (inItems rest)
         end) xs
  | _ => []
  end.

(** Modelled from the spec: the references "reachable from [paths] or
    [components.schemas]": the registered schemas first, then the
    operations (4.3). *)
Definition documentRefs (doc : JsValue) : list string :=
  app (collectRefs (getProp (getProp doc "components") "schemas"))
      (collectRefs (getProp doc "paths")).

(** Modelled from the spec: "every reference resolves to exactly one node
    or generation fails"; the first reference that does not resolve aborts. *)
Fixpoint resolveAll (root : JsValue) (refs : list string) : result unit :=
  match refs with
  | [] => Ok tt
  | ref :: rest =>
      match resolve root ref with
      | Ok _ => resolveAll root rest
      | Err e => Err e
      end
  end.

(** Modelled from the spec: [generateTypes] of the absent
    [./types-generator].  Resolution of the whole document "happens once,
    to completion, before any emission begins" (5); what is emitted
    afterwards is left to [emitTypes]. *)
Definition generateTypes (emitTypes : JsValue -> result GeneratedFile)
    (spec : JsValue) : result GeneratedFile :=
  match resolveAll spec (documentRefs spec) with
  | Err e => Err e
  | Ok _ => emitTypes spec
  end.

End Resolver.

(** ** The typed view of a specification ([src/config/types.ts]) *)

Module OpenAPI.

Record Operation : Type := mkOperation {
  operationId : option string;
  summary : option string;
  description : option string;
  tags : option (list string)
}.

Record PathItem : Type := mkPathItem {
  get : option Operation;
  post : option Operation;
  put : option Operation;
  delete : option Operation;
  patch : option Operation;
  options : option Operation;
  head : option Operation;
  trace : option Operation
}.

(** [paths] keeps the declaration order of its entries; an entry whose
    value is [null] (a path with nothing under it) is [None]. *)
Record OpenAPISpec : Type := mkOpenAPISpec {
  openapi : string;
  paths : option (list (string * option PathItem))
}.

(** [pathItem[method]] *)
Definition operationAt (pathItem : PathItem) (method : string) : option Operation :=
  if String.eqb method "get" then get pathItem
  else if String.eqb method "post" then post pathItem
  else if String.eqb method "put" then put pathItem
  else if String.eqb method "delete" then delete pathItem
  else if String.eqb method "patch" then patch pathItem
  else if String.eqb method "options" then options pathItem
  else if String.eqb method "head" then head pathItem
  else if String.eqb method "trace" then trace pathItem
  else None.

End OpenAPI.

(** ** [enhanceWithAI] and its helpers ([src/generator/index.ts]) *)

Module Enhance.
Import OpenAPI.

Definition generateBasicStub (operationId : string) : string :=
  nl ++
  "// TODO: Implement " ++ operationId ++ nl ++
  "export async function " ++ operationId ++ "(request: Request): Promise<Response> {" ++ nl ++
  "  // Add your business logic here" ++ nl ++
  "  return new Response(JSON.stringify({ " ++ nl ++
  "    message: " ++ dq ++ "Not implemented" ++ dq ++ ", " ++ nl ++
  "    operation: " ++ dq ++ operationId ++ dq ++ " " ++ nl ++
  "  }), {" ++ nl ++
  "    status: 501," ++ nl ++
  "    headers: { " ++ dq ++ "Content-Type" ++ dq ++ ": " ++ dq ++ "application/json" ++ dq ++ " }" ++ nl ++
  "  });" ++ nl ++
  "}".

(** [{ ...operation, path, method }] *)
Record FoundOperation : Type := mkFound {
  found : Operation;
  found_path : string;
  found_method : string
}.

Definition methods : list string :=
  ["get"; "post"; "put"; "delete"; "patch"; "options"; "head"; "trace"].

(** The inner loop [for (const method of methods)]. *)
Fixpoint findInMethods (pathItem : PathItem) (p : string) (wanted : string)
    (ms : list string) : option FoundOperation :=
  match ms with
  | [] => None
  | method :: ms' =>
      match operationAt pathItem method with
      | Some operation =>
          match operationId operation with
          | Some oid =>
              if String.eqb oid wanted
              then Some (mkFound operation p method)
              else findInMethods pathItem p wanted ms'
          | None => findInMethods pathItem p wanted ms'
          end
      | None => findInMethods pathItem p wanted ms'
      end
  end.

(** The outer loop over [Object.entries(spec.paths || {})]. *)
Fixpoint findInPaths (entries : list (string * option PathItem)) (wanted : string)
  : option FoundOperation :=
  match entries with
  | [] => None
  | (p, None) :: rest => findInPaths rest wanted
  | (p, Some pathItem) :: rest =>
      match findInMethods pathItem p wanted methods with
      | Some r => Some r
      | None => findInPaths rest wanted
      end
  end.

Definition findOperation (spec : OpenAPISpec) (operationId : string)
  : option FoundOperation :=
  findInPaths (match paths spec with Some ps => ps | None => [] end) operationId.

(** [x?.field || fallback] for an optional string field. *)
Definition field_or (x : option string) (fallback : string) : string :=
  match x with
  | Some s => str_or s fallback
  | None => fallback
  end.

Definition buildAIPrompt (spec : OpenAPISpec) (operationId : string) : string :=
  let operation := findOperation spec operationId in
  "Generate a Cloudflare Workers compatible TypeScript function for this OpenAPI operation:" ++ nl ++
  nl ++
  "Operation ID: " ++ operationId ++ nl ++
  "Description: " ++ field_or (o ← operation; description (found o)) "No description provided" ++ nl ++
  "Method: " ++ field_or (found_method <$> operation) "Unknown" ++ nl ++
  "Path: " ++ field_or (found_path <$> operation) "Unknown" ++ nl ++
  nl ++
  "Requirements:" ++ nl ++
  "- Use TypeScript" ++ nl ++
  "- Compatible with Cloudflare Workers runtime" ++ nl ++
  "- Include proper error handling" ++ nl ++
  "- Return appropriate HTTP responses" ++ nl ++
  "- Include TODO comments for business logic implementation" ++ nl ++
  nl ++
  "Please generate only the function implementation, not the full file structure.".

(** What [fetch] is called with and what it resolves to. *)
Record FetchRequest : Type := mkFetchRequest {
  fetch_url : string;
  fetch_method : string;
  fetch_headers : list (string * string);
  fetch_body : JsValue        (* the value given to [JSON.stringify] *)
}.

Record FetchResponse : Type := mkFetchResponse {
  status : Z;
  statusText : string;
  json : result JsValue       (* [await response.json()] *)
}.

(** [response.ok] *)
Definition ok (response : FetchResponse) : bool :=
  (200 <=? status response)%Z && (status response <=? 299)%Z.

(** The request of [callAIAPI]: the URL and the [init] object given to
    [fetch]. *)
Definition chatCompletionsRequest (config : Config) (prompt : string) : FetchRequest :=
  mkFetchRequest
    (apiUrl config ++ "/chat/completions")
    "POST"
    [("Authorization", "Bearer " ++ apiKey config);
     ("Content-Type", "application/json")]
    (JObj
       [("model", JStr "gpt-3.5-turbo");
        ("messages",
         JArr
           [JObj [("role", JStr "system");
                  ("content", JStr "You are a TypeScript expert specializing in Cloudflare Workers development.")];
            JObj [("role", JStr "user");
                  ("content", JStr prompt)]]);
        ("max_tokens", JNum (Finite 1000));
        ("temperature", JNum (Finite (7 # 10)))]).

Section WithNetwork.

(** The network: [fetch] resolves to a response or rejects. *)
Variable fetch : FetchRequest -> result FetchResponse.

Definition callAIAPI (config : Config) (prompt : string) : result JsValue :=
  match fetch (chatCompletionsRequest config prompt)
  with
  | Err e => Err e
  | Ok response =>
      if negb (ok response)
      then Err (newError ("AI API request failed: " ++ pretty (status response)
                          ++ " " ++ statusText response))
      else
        match json response with
        | Err e => Err e
        | Ok data =>
            if nullish data
            then Err (mkJsError TypeError "Cannot read properties of null (reading 'choices')")
            else
              let content :=
                optProp (optProp (optIndex0 (getProp data "choices")) "message") "content" in
              if truthy content then Ok content
              else Ok (JStr (generateBasicStub "unknown"))
        end
  end.

Definition enhanceWithAI (config : Config) (spec : OpenAPISpec) (operationId : string)
  : M JsValue :=
  if String.eqb (apiKey config) "" || String.eqb (apiKey config) "your-api-key-here"
  then
    run! console_warn "⚠️  No API key configured. Skipping AI enhancement." in
    ret (JStr (generateBasicStub operationId))
  else
    try_catch
      (let prompt := buildAIPrompt spec operationId in
       let! enhancedCode := lift (callAIAPI config prompt) in
       ret enhancedCode)
      (fun error =>
         run! console_warn ("⚠️  AI enhancement failed for " ++ operationId ++ ": "
                            ++ message error) in
         ret (JStr (generateBasicStub operationId))).

End WithNetwork.

End Enhance.

(** ** Requests and responses of the Workers runtime *)

Module Http.

(** [pathname] is [new URL(request.url).pathname]; [header] is
    [request.headers.get]. *)
Record Request : Type := mkRequest {
  method : string;
  pathname : string;
  header : string -> option string
}.

(** [new Response(JSON.stringify(body), { status, headers })]: the body is
    kept as the value that is serialised. *)
Record Response : Type := mkResponse {
  status : Z;
  headers : list (string * string);
  body : JsValue
}.

Record Env : Type := mkEnv {
  API_KEY : option string;
  API_BASE_URL : option string;
  ALLOWED_ORIGINS : option string;
  RATE_LIMIT_PER_MINUTE : option string;
  DEBUG : option string
}.

Variant ExecutionContext : Type := executionContext.

End Http.

(** ** [examples/enhanced-worker.ts] *)

Module EnhancedWorker.
Import Http.

Record RateLimitEntry : Type := mkEntry { count : Z; resetTime : Z }.

(** What outlives one invocation of the worker module: the module-level
    [rateLimitStore], and the clock that [Date.now()] reads ([clock s n] is
    the [n]-th reading). *)
Record WorkerState : Type := mkState {
  rateLimitStore : gmap string RateLimitEntry;
  clock : nat -> Z;
  readings : nat
}.

Definition Handler : Type :=
  Request -> Env -> ExecutionContext -> Eff WorkerState Response.

(** [Date.now()] *)
Definition date_now : Eff WorkerState Z :=
  fun s => (Ok (clock s (readings s)),
            mkState (rateLimitStore s) (clock s) (S (readings s))).

Definition get_store : Eff WorkerState (gmap string RateLimitEntry) :=
  fun s => (Ok (rateLimitStore s), s).

Definition put_store (m : gmap string RateLimitEntry) : Eff WorkerState unit :=
  fun s => (Ok tt, mkState m (clock s) (readings s)).

(** *** [parseInt(string)]

    Leading white space, a sign, an optional [0x] prefix, then the longest
    run of digits; [None] is [NaN].  Integers are exact. *)

Definition isWhiteSpace (c : ascii) : bool :=
  match N_of_ascii c with
  | 9%N | 10%N | 11%N | 12%N | 13%N | 32%N => true
  | _ => false
  end.

Fixpoint skipWhiteSpace (s : string) : string :=
  match s with
  | String c s' => if isWhiteSpace c then skipWhiteSpace s' else s
  | EmptyString => s
  end.

Definition digitValue (radix : Z) (c : ascii) : option Z :=
  let n := Z.of_N (N_of_ascii c) in
  let v :=
    if (48 <=? n)%Z && (n <=? 57)%Z then (n - 48)%Z
    else if (97 <=? n)%Z && (n <=? 122)%Z then (n - 87)%Z
    else if (65 <=? n)%Z && (n <=? 90)%Z then (n - 55)%Z
    else 36%Z in
  if (v <? radix)%Z then Some v else None.

Fixpoint parseDigits (radix : Z) (s : string) (acc : option Z) : option Z :=
  match s with
  | String c s' =>
      match digitValue radix c with
      | Some d => parseDigits radix s' (Some (radix * default 0 acc + d)%Z)
      | None => acc
      end
  | EmptyString => acc
  end.

Definition parseInt (s : string) : option Z :=
  let s1 := skipWhiteSpace s in
  let '(negative, s2) :=
    match s1 with
    | String "-" r => (true, r)
    | String "+" r => (false, r)
    | _ => (false, s1)
    end in
  let '(radix, s3) :=
    match s2 with
    | String "0" (String "x" r) => (16%Z, r)
    | String "0" (String "X" r) => (16%Z, r)
    | _ => (10%Z, s2)
    end in
  match parseDigits radix s3 None with
  | Some n => Some (if negative then (- n)%Z else n)
  | None => None
  end.

(** *** Rate limiting *)

Record RateLimitResult : Type := mkRate {
  allowed : bool;
  retryAfter : option Z
}.

(** [for (const [key, value] of rateLimitStore.entries())
       if (value.resetTime < cutoff) rateLimitStore.delete(key)] *)
Definition cleanupRateLimit (now windowMs : Z) : Eff WorkerState unit :=
  let cutoff := (now - windowMs)%Z in
  let! store := get_store in
  put_store (filter (fun kv => (cutoff <= resetTime kv.2)%Z) store).

(** [Math.ceil(x / 1000)] for an integer [x]. *)
Definition ceil_div_1000 (x : Z) : Z := (- ((- x) / 1000))%Z.

Definition checkRateLimit (clientIP : string) (env : Env) : Eff WorkerState RateLimitResult :=
  let limit := parseInt (Enhance.field_or (RATE_LIMIT_PER_MINUTE env) "60") in
  let windowMs := (60 * 1000)%Z in
  let! now := date_now in
  let windowStart := (now / windowMs * windowMs)%Z in
  let key := clientIP ++ ":" ++ pretty windowStart in
  let! store := get_store in
  let current := default (mkEntry 0 (windowStart + windowMs)) (store !! key) in
  if match limit with Some l => (l <=? count current)%Z | None => false end
  then
    let retryAfter := ceil_div_1000 (resetTime current - now) in
    ret (mkRate false (Some retryAfter))
  else
    run! put_store (<[key := mkEntry (count current + 1) (resetTime current)]> store) in
    run! cleanupRateLimit now windowMs in
    ret (mkRate true None).

(** *** The router *)

(** The eighteen imported group workers. *)
Record GroupWorkers : Type := mkWorkers {
  assistantsWorker : Handler;
  audioWorker : Handler;
  batchesWorker : Handler;
  chatWorker : Handler;
  completionsWorker : Handler;
  embeddingsWorker : Handler;
  evalsWorker : Handler;
  filesWorker : Handler;
  fine_tuningWorker : Handler;
  imagesWorker : Handler;
  modelsWorker : Handler;
  moderationsWorker : Handler;
  organizationWorker : Handler;
  realtimeWorker : Handler;
  responsesWorker : Handler;
  threadsWorker : Handler;
  uploadsWorker : Handler;
  vector_storesWorker : Handler
}.

Definition availableRoutes : list string :=
  ["assistants"; "audio"; "batches"; "chat"; "completions";
   "embeddings"; "evals"; "files"; "fine_tuning"; "images";
   "models"; "moderations"; "organization"; "realtime";
   "responses"; "threads"; "uploads"; "vector_stores"].

(** The [default:] branch of the switch. *)
Definition notFound : Response :=
  mkResponse 404
    [("Content-Type", "application/json")]
    (JObj [("error", JStr "Not Found");
           ("availableRoutes", JArr (map JStr availableRoutes))]).

(** [url.pathname.split("/").filter(Boolean)] *)
Definition pathSegments (p : string) : list string :=
  List.filter (fun seg => negb (String.eqb seg "")) (split_on "/" p).

(** [pathSegments[0] || "root"] *)
Definition routePrefix (p : string) : string :=
  match pathSegments p with
  | seg :: _ => str_or seg "root"
  | [] => "root"
  end.

Definition routeRequest (W : GroupWorkers) : Handler :=
  fun request env ctx =>
    let routePrefix := routePrefix (pathname request) in
    if String.eqb routePrefix "assistants" then assistantsWorker W request env ctx
    else if String.eqb routePrefix "audio" then audioWorker W request env ctx
    else if String.eqb routePrefix "batches" then batchesWorker W request env ctx
    else if String.eqb routePrefix "chat" then chatWorker W request env ctx
    else if String.eqb routePrefix "completions" then completionsWorker W request env ctx
    else if String.eqb routePrefix "embeddings" then embeddingsWorker W request env ctx
    else if String.eqb routePrefix "evals" then evalsWorker W request env ctx
    else if String.eqb routePrefix "files" then filesWorker W request env ctx
    else if String.eqb routePrefix "fine_tuning" then fine_tuningWorker W request env ctx
    else if String.eqb routePrefix "images" then imagesWorker W request env ctx
    else if String.eqb routePrefix "models" then modelsWorker W request env ctx
    else if String.eqb routePrefix "moderations" then moderationsWorker W request env ctx
    else if String.eqb routePrefix "organization" then organizationWorker W request env ctx
    else if String.eqb routePrefix "realtime" then realtimeWorker W request env ctx
    else if String.eqb routePrefix "responses" then responsesWorker W request env ctx
    else if String.eqb routePrefix "threads" then threadsWorker W request env ctx
    else if String.eqb routePrefix "uploads" then uploadsWorker W request env ctx
    else if String.eqb routePrefix "vector_stores" then vector_storesWorker W request env ctx
    else ret notFound.

End EnhancedWorker.

(** ** Reading a generated stub as a handler

    [generateBasicStub] returns TypeScript text.  [readStub] reads a text of
    exactly the template's shape as the module it is: the exported async
    function and the response its body constructs.  It is deliberately
    partial: [Fails] is returned only where the text certainly is not a
    module whose handler returns the response (a syntax error at the
    function name, or a name that shadows a global the body calls), and
    [Unread] wherever the reader does not decide. *)

Module StubReader.
Import Http.

Definition isAsciiLetter (c : ascii) : bool :=
  let n := N_of_ascii c in
  ((97 <=? n)%N && (n <=? 122)%N) || ((65 <=? n)%N && (n <=? 90)%N).

Definition isAsciiDigit (c : ascii) : bool :=
  let n := N_of_ascii c in (48 <=? n)%N && (n <=? 57)%N.

(** IdentifierStart and IdentifierPart, ASCII only. *)
Definition isIdentifierStart (c : ascii) : bool :=
  isAsciiLetter c || Ascii.eqb c "_" || Ascii.eqb c "$".

Definition isIdentifierPart (c : ascii) : bool :=
  isIdentifierStart c || isAsciiDigit c.

Fixpoint string_forallb (f : ascii -> bool) (s : string) : bool :=
  match s with
  | EmptyString => true
  | String c s' => f c && string_forallb f s'
  end.

(** The longest prefix whose characters satisfy [f], and the rest. *)
Fixpoint span (f : ascii -> bool) (s : string) : string * string :=
  match s with
  | EmptyString => (EmptyString, EmptyString)
  | String c s' =>
      if f c
      then let '(taken, rest) := span f s' in (String c taken, rest)
      else (EmptyString, s)
  end.

(** Names that cannot be bound by a function declaration in module code
    (always strict): the reserved words, the strict-mode ones, [await], and
    [eval] and [arguments]. *)
Definition reservedWords : list string :=
  ["await"; "break"; "case"; "catch"; "class"; "const"; "continue";
   "debugger"; "default"; "delete"; "do"; "else"; "enum"; "export";
   "extends"; "false"; "finally"; "for"; "function"; "if"; "import"; "in";
   "instanceof"; "new"; "null"; "return"; "super"; "switch"; "this";
   "throw"; "true"; "try"; "typeof"; "var"; "void"; "while"; "with";
   "yield"; "let"; "static"; "implements"; "interface"; "package";
   "private"; "protected"; "public"; "eval"; "arguments"].

(** The globals the body calls: a function declared under one of these
    names is what [new Response(...)] or [JSON.stringify] then finds. *)
Definition capturedGlobals : list string := ["Response"; "JSON"].

(** The types the signature names: a function declared under one of these
    names changes what the annotations refer to; the reader leaves such a
    module undecided. *)
Definition annotationTypes : list string := ["Request"; "Promise"].

(** A well-formed name of the exported function, as far as the reader
    vouches for it. *)
Definition validFunctionName (name : string) : bool :=
  match name with
  | EmptyString => false
  | String c rest =>
      isIdentifierStart c
      && string_forallb isIdentifierPart rest
      && negb (existsb (String.eqb name) reservedWords)
      && negb (existsb (String.eqb name) capturedGlobals)
      && negb (existsb (String.eqb name) annotationTypes)
  end.

(** An ASCII character that cannot come between the function's name and
    its parameter list (white space, [<], [/] and [\] are left undecided). *)
Definition cannotFollowName (c : ascii) : bool :=
  (N_of_ascii c <? 128)%N
  && negb (isIdentifierPart c)
  && negb (Ascii.eqb c "(")
  && negb (EnhancedWorker.isWhiteSpace c)
  && negb (Ascii.eqb c "<")
  && negb (Ascii.eqb c "/")
  && negb (Ascii.eqb c "\").

Definition isCommentChar (c : ascii) : bool :=
  (N_of_ascii c <? 128)%N && negb (N_of_ascii c =? 13)%N.

(** A character that stands for itself inside a double-quoted literal. *)
Definition isPlainStringChar (c : ascii) : bool :=
  negb (Ascii.eqb c dquote) && negb (Ascii.eqb c "\")
  && negb (Ascii.eqb c linefeed) && negb (N_of_ascii c =? 13)%N.

(** [new Response(JSON.stringify({ message: "Not implemented",
    operation: <literal> }), { status: 501, headers: {...} })] *)
Definition notImplemented (operation : string) : Response :=
  mkResponse 501
    [("Content-Type", "application/json")]
    (JObj [("message", JStr "Not implemented"); ("operation", JStr operation)]).

(** The template between the function's name and the literal, and after it. *)
Definition afterName : string :=
  "(request: Request): Promise<Response> {" ++ nl ++
  "  // Add your business logic here" ++ nl ++
  "  return new Response(JSON.stringify({ " ++ nl ++
  "    message: " ++ dq ++ "Not implemented" ++ dq ++ ", " ++ nl ++
  "    operation: " ++ dq.

Definition afterLiteral : string :=
  dq ++ " " ++ nl ++
  "  }), {" ++ nl ++
  "    status: 501," ++ nl ++
  "    headers: { " ++ dq ++ "Content-Type" ++ dq ++ ": " ++ dq ++ "application/json" ++ dq ++ " }" ++ nl ++
  "  });" ++ nl ++
  "}".

Inductive Reading : Type :=
| Handler (name : string) (run : Request -> Response)
| Fails (why : string)
| Unread.

(** From the parameter list on. *)
Definition readBody (name code : string) : Reading :=
  match strip_prefix afterName code with
  | None => Unread
  | Some s =>
      let '(literal, rest) := span isPlainStringChar s in
      if String.eqb rest afterLiteral
      then Handler name (fun _ => notImplemented literal)
      else Unread
  end.

(** From the function's name on. *)
Definition readFunction (code : string) : Reading :=
  let '(name, rest) := span isIdentifierPart code in
  match rest with
  | EmptyString => Fails "function name"
  | String c _ =>
      if cannotFollowName c then Fails "function name"
      else if negb (Ascii.eqb c "(") then Unread
      else
        match name with
        | EmptyString => Fails "function name"
        | String c0 _ =>
            if isAsciiDigit c0 then Fails "function name"
            else if existsb (String.eqb name) reservedWords then Fails "reserved word"
            else if existsb (String.eqb name) capturedGlobals then Fails "shadowed global"
            else if existsb (String.eqb name) annotationTypes then Unread
            else readBody name rest
        end
  end.

Definition readStub (code : string) : Reading :=
  match strip_prefix (nl ++ "// TODO: Implement ") code with
  | None => Unread
  | Some s1 =>
      let '(comment, s2) := span (fun c => negb (Ascii.eqb c linefeed)) s1 in
      if negb (string_forallb isCommentChar comment) then Unread
      else
        match strip_prefix (nl ++ "export async function ") s2 with
        | None => Unread
        | Some s3 => readFunction s3
        end
  end.

End StubReader.

(** ** The group dispatcher (spec 4.5) *)

Module Dispatch.
Import Http.

(** Modelled from the spec: the dispatchers are emitted by
    [./stubs-generator], which is absent.  A group "exposes a single
    dispatch entry point that parses the incoming request's method and
    path, matches it against the group's known (method, path-template)
    pairs -- path templates with {param} segments use exact segment-count
    match plus literal-segment equality with parameter segments accepting
    any non-empty value -- executes the matched operation's body (a
    placeholder ...), and falls through to a not-found response when
    nothing matches". *)
Record OperationRoute : Type := mkRoute {
  route_method : string;
  route_template : string;
  route_operationId : string
}.

Definition isParameterSegment (seg : string) : bool :=
  match seg with
  | String "{" rest =>
      match String.get (String.length rest - 1) rest with
      | Some c => Ascii.eqb c "}"
      | None => false
      end
  | _ => false
  end.

Definition segmentMatches (template actual : string) : bool :=
  if isParameterSegment template
  then negb (String.eqb actual "")
  else String.eqb template actual.

Fixpoint segmentsMatch (template actual : list string) : bool :=
  match template, actual with
  | [], [] => true
  | t :: template', a :: actual' => segmentMatches t a && segmentsMatch template' actual'
  | _, _ => false
  end.

Definition routeMatches (request : Request) (r : OperationRoute) : bool :=
  String.eqb (route_method r) (method request)
  && segmentsMatch (split_on "/" (route_template r)) (split_on "/" (pathname request)).

Definition groupNotFound : Response :=
  mkResponse 404 [("Content-Type", "application/json")] (JObj [("error", JStr "Not Found")]).

Definition groupDispatcher (routes : list OperationRoute) : EnhancedWorker.Handler :=
  fun request env ctx =>
    match List.find (routeMatches request) routes with
    | Some r => ret (StubReader.notImplemented (route_operationId r))
    | None => ret groupNotFound
    end.

End Dispatch.

(** ** [src/utils/string-utils.ts], the case conversions and [pluralize]

    [capitalizeFirstLetter] is left out: it upper-cases an arbitrary first
    unit, which takes the Unicode case tables. *)

Module StringCase.
Import StringUtils.

Definition hyphen : N := 45%N.

(** [[a-zA-Z0-9]] *)
Definition isAlnumUnit (c : N) : bool :=
  ((97 <=? c)%N && (c <=? 122)%N)
  || ((65 <=? c)%N && (c <=? 90)%N)
  || isDigit c.

(** [.replace(/[^a-zA-Z0-9]/g, sep)] for a one-unit [sep]. *)
Definition replaceNonAlnum (sep : N) (s : jsstring) : jsstring :=
  map (fun c => if isAlnumUnit c then c else sep) s.

(** [toLowerCase()] and [toUpperCase()] as they act on the strings these
    functions give them: every such string comes out of [replaceNonAlnum],
    so its units are ASCII letters, digits and the separator, and on those
    the case mappings work unit by unit, on the letters only. *)
Definition lowerUnit (c : N) : N :=
  if (65 <=? c)%N && (c <=? 90)%N then (c + 32)%N else c.

Definition upperUnit (c : N) : N :=
  if (97 <=? c)%N && (c <=? 122)%N then (c - 32)%N else c.

Definition toLowerCaseAscii (s : jsstring) : jsstring := map lowerUnit s.
Definition toUpperCaseAscii (s : jsstring) : jsstring := map upperUnit s.

(** [s.split(sep)] for a one-unit separator: never the empty list. *)
Fixpoint split (sep : N) (s : jsstring) : list jsstring :=
  match s with
  | [] => [[]]
  | c :: s' =>
      if (c =? sep)%N then [] :: split sep s'
      else match split sep s' with
           | h :: t => (c :: h) :: t
           | [] => [[c]]
           end
  end.

(** [word.charAt(0)] and [word.slice(1)] *)
Definition charAt0 (word : jsstring) : jsstring :=
  match word with
  | c :: _ => [c]
  | [] => []
  end.

Definition slice1 (word : jsstring) : jsstring := tail word.

(** [word.charAt(0).toUpperCase() + word.slice(1).toLowerCase()] *)
Definition capitalizeWord (word : jsstring) : jsstring :=
  app (toUpperCaseAscii (charAt0 word)) (toLowerCaseAscii (slice1 word)).

Definition toCamelCase (s : jsstring) : jsstring :=
  concat
    (imap (fun index word =>
             if Nat.eqb index 0 then toLowerCaseAscii word else capitalizeWord word)
          (split underscore (replaceNonAlnum underscore s))).

Definition toPascalCase (s : jsstring) : jsstring :=
  concat (map capitalizeWord (split underscore (replaceNonAlnum underscore s))).

Definition toKebabCase (s : jsstring) : jsstring :=
  toLowerCaseAscii (replaceNonAlnum hyphen s).

Definition toSnakeCase (s : jsstring) : jsstring :=
  toLowerCaseAscii (replaceNonAlnum underscore s).

(** [word.startsWith(p)], and [word.endsWith(suffix)] read backwards. *)
Fixpoint startsWith (p word : jsstring) : bool :=
  match p, word with
  | [], _ => true
  | a :: p', b :: word' => (a =? b)%N && startsWith p' word'
  | _ :: _, [] => false
  end.

Definition endsWith (suffix word : jsstring) : bool :=
  startsWith (rev suffix) (rev word).

Definition pluralize (word : jsstring) : jsstring :=
  if endsWith (units "y") word
  then app (removelast word) (units "ies")      (* word.slice(0, -1) + 'ies' *)
  else if endsWith (units "s") word || endsWith (units "sh") word
          || endsWith (units "ch") word || endsWith (units "x") word
          || endsWith (units "z") word
  then app word (units "es")
  else app word (units "s").

End StringCase.

(** ** [src/utils/file-utils.ts], [readFile] and [fileExists] *)

Definition readFile (filePath : string) : M string :=
  try_catch (fs_readFile filePath)
    (fun error =>
       throw (newError ("Error reading file at " ++ filePath ++ ": " ++ message error))).

(** [fs.access(p)]: resolves when [p] is a file or a directory. *)
Definition fs_access (p : string) : M unit :=
  fun w =>
    match fs_files (fs w) !! p with
    | Some _ => (Ok tt, w)
    | None =>
        if decide (p ∈ fs_dirs (fs w)) then (Ok tt, w)
        else (Err (newError ("ENOENT: no such file or directory, access '" ++ p ++ "'")), w)
    end.

Definition fileExists (filePath : string) : M bool :=
  try_catch
    (run! fs_access filePath in
     ret true)
    (fun _ => ret false).


(** ** The configuration ([src/config/index.ts]) and the command line
       ([src/index.ts]) *)

Module Cli.

(** [process.env] *)
Definition ProcessEnv : Type := string -> option string.

Definition defaultConfig (env : ProcessEnv) : Config :=
  mkConfig
    (Enhance.field_or (env "API_URL") "https://api.openai.com/v1")
    (Enhance.field_or (env "API_KEY") "your-api-key-here")
    (Enhance.field_or (env "OUTPUT_DIR") "./generated")
    (match env "GENERATE_CF_WORKER" with
     | Some v => String.eqb v "true"
     | None => false
     end || true).

Definition config : ProcessEnv -> Config := defaultConfig.

(** How [main] ends: it returns, or it calls [process.exit]. *)
Variant Ended : Type := Returned | Exited (code : Z).

Definition usage : string :=
  nl ++
  "🚀 OpenAPI Stub Generator" ++ nl ++
  nl ++
  "Usage: npm start <path-to-openapi.yaml>" ++ nl ++
  nl ++
  "Options:" ++ nl ++
  "  Set environment variables to configure:" ++ nl ++
  "  - API_URL: OpenAI API compatible endpoint (default: https://api.openai.com/v1)" ++ nl ++
  "  - API_KEY: API key for AI enhancement" ++ nl ++
  "  - OUTPUT_DIR: Output directory (default: ./generated)" ++ nl ++
  "  - GENERATE_CF_WORKER: Generate Cloudflare Worker (default: true)" ++ nl ++
  nl ++
  "Example:" ++ nl ++
  "  npm start ./api/openapi.yaml" ++ nl ++
  "  " ++ nl ++
  "  # With custom output directory" ++ nl ++
  "  OUTPUT_DIR=./src/generated npm start ./api/openapi.yaml" ++ nl ++
  "    ".

(** A boolean in a template literal. *)
Definition boolText (b : bool) : string := if b then "true" else "false".

(** [config.apiKey !== 'your-api-key-here' ? '✅ Enabled' : '❌ Disabled'] *)
Definition aiEnhancement (config : Config) : string :=
  if negb (String.eqb (apiKey config) "your-api-key-here")
  then "✅ Enabled" else "❌ Disabled".

(** [files.forEach(file => console.log(...))] *)
Fixpoint printEach (files : list GeneratedFile) : M unit :=
  match files with
  | [] => ret tt
  | file :: rest =>
      run! console_log ("  ✅ " ++ path file ++ " - " ++ description file) in
      printEach rest
  end.

Section Main.

Variable yaml_load : string -> result JsValue.
Variable generateTypes : JsValue -> result GeneratedFile.
Variable generateStubs : JsValue -> Config -> result (list GeneratedFile).

(** [resolve] of Node's [path], for the working directory of the process. *)
Variable resolve : string -> string.

(** [args] is [process.argv.slice(2)]. *)
Definition main (env : ProcessEnv) (args : list string) : M Ended :=
  match args with
  | [] =>
      run! console_log usage in
      ret (Exited 1)
  | arg0 :: _ =>
      let yamlFilePath := resolve arg0 in
      run! console_log "🔧 Configuration:" in
      run! console_log ("  Input file: " ++ yamlFilePath) in
      run! console_log ("  Output directory: " ++ outputDir (config env)) in
      run! console_log ("  API URL: " ++ apiUrl (config env)) in
      run! console_log ("  Generate Cloudflare Worker: "
                        ++ boolText (generateCloudflareWorker (config env))) in
      run! console_log ("  AI Enhancement: " ++ aiEnhancement (config env)) in
      run! console_log EmptyString in
      try_catch
        (let! files :=
           generateFromYaml yaml_load generateTypes generateStubs (config env) yamlFilePath in
         run! console_log EmptyString in
         run! console_log "📁 Generated files:" in
         run! printEach files in
         run! console_log EmptyString in
         run! console_log "🎉 Generation completed successfully!" in
         run! console_log EmptyString in
         run! console_log "Next steps:" in
         run! console_log "1. Review the generated files" in
         run! console_log "2. Implement the TODO business logic" in
         run! console_log "3. Deploy to Cloudflare Workers (if applicable)" in
         ret Returned)
        (fun error =>
           run! console_error ("❌ Error: " ++ message error) in
           ret (Exited 1))
  end.

End Main.

End Cli.

(** ** The gates of [examples/enhanced-worker.ts]: [handleCors] and
       [validateAuth] *)

Module WorkerGates.
Import Http.

(** [array.includes(x)] for an array of strings. *)
Definition includes (xs : list string) (x : string) : bool :=
  existsb (String.eqb x) xs.

(** A response made with [new Response(null, ...)] has no body: nothing is
    serialised, and [body] is [JUndefined]. *)
Definition handleCors (request : Request) (env : Env) : Response :=
  let allowedOrigins :=
    match ALLOWED_ORIGINS env with
    | Some s => split_on "," s
    | None => ["*"]
    end in
  let origin := Enhance.field_or (header request "Origin") EmptyString in
  let corsHeaders :=
    [("Access-Control-Allow-Methods", "GET, POST, PUT, DELETE, OPTIONS");
     ("Access-Control-Allow-Headers", "Content-Type, Authorization");
     ("Access-Control-Max-Age", "86400")] in
  let corsHeaders :=
    if includes allowedOrigins "*" || includes allowedOrigins origin
    then app corsHeaders [("Access-Control-Allow-Origin", str_or origin "*")]
    else corsHeaders in
  mkResponse 204 corsHeaders JUndefined.

(** [{ valid: boolean; error?: string }] *)
Record AuthResult : Type := mkAuth {
  valid : bool;
  error : option string
}.

Definition validateAuth (request : Request) (env : Env) : AuthResult :=
  if String.eqb (pathname request) "/health" || String.eqb (pathname request) "/health/"
  then mkAuth true None
  else
    match header request "Authorization" with
    | None => mkAuth false (Some "Authorization header required")
    | Some authHeader =>
        if String.eqb authHeader EmptyString
        then mkAuth false (Some "Authorization header required")
        else
          match strip_prefix "Bearer " authHeader with
          | None => mkAuth false (Some "Invalid authorization format")
          | Some token =>
              if String.eqb token EmptyString
              then mkAuth false (Some "Missing API key")
              else
                match API_KEY env with
                | None => mkAuth false (Some "API key not configured")
                | Some key =>
                    if String.eqb key EmptyString
                    then mkAuth false (Some "API key not configured")
                    else mkAuth true None
                end
          end
    end.

End WorkerGates.

(** ** [examples/usage-examples.ts]: the custom worker *)

Module UsageExamples.
Import Http EnhancedWorker.

(** [s.startsWith(prefix)] *)
Definition startsWith (s prefix : string) : bool :=
  match strip_prefix prefix s with
  | Some _ => true
  | None => false
  end.

(** What [customWorker.fetch] returns: a response with a text body it makes
    itself, or the response of the worker, as it is. *)
Variant Reply : Type :=
  | TextReply (status : Z) (text : string)
  | WorkerReply (response : Response).

Section CustomWorker.

(** The default export of the generated [worker] module. *)
Variable worker : Handler.

Definition customWorker (request : Request) (env : Env) (ctx : ExecutionContext)
  : Eff WorkerState Reply :=
  if startsWith (pathname request) "/health"
  then ret (TextReply 200 "OK")
  else if startsWith (pathname request) "/v1/" || startsWith (pathname request) "/chat/"
  then
    let! response := worker request env ctx in
    ret (WorkerReply response)
  else ret (TextReply 404 "Not Found").

End CustomWorker.

End UsageExamples.

(** * The vocabulary of the properties

    What the statements below are phrased with: the readings the claims
    use, and the concrete configurations, disks and documents the witnesses
    and counterexamples run on. *)

(** ** For [enhanceWithAI] *)

Section EnhanceVocabulary.
Import Enhance.

(** [data.choices?.[0]?.message?.content], read without failing. *)
Definition contentOf (data : JsValue) : JsValue :=
  optProp (optProp (optIndex0 (optProp data "choices")) "message") "content".

(** The key test at the head of [enhanceWithAI]. *)
Definition keyMissing (config : Config) : bool :=
  String.eqb (apiKey config) "" || String.eqb (apiKey config) "your-api-key-here".

Definition failureWarning (operationId : string) (error : JsError) : Level * string :=
  (WarnLevel, "⚠️  AI enhancement failed for " ++ operationId ++ ": " ++ message error).

End EnhanceVocabulary.

(** A configuration with a key, a specification without paths, an empty
    disk and a silent console. *)
Definition keyedConfig : Config :=
  mkConfig "https://api.openai.com/v1" "sk-test" "./generated" true.

Definition emptySpec : OpenAPI.OpenAPISpec := OpenAPI.mkOpenAPISpec "3.0.0" None.

Definition emptyWorld : World := mkWorld (mkFS ∅ ∅) [].

(** A network that answers every request with [200 OK] and the given body. *)
Definition answering (body : result JsValue) : Enhance.FetchRequest -> result Enhance.FetchResponse :=
  fun _ => Ok (Enhance.mkFetchResponse 200 "OK" body).

(** ** For the pipeline and the writer *)

(** Where an artifact goes. *)
Definition target (dir : string) (f : GeneratedFile) : string :=
  dir ++ "/" ++ path f.

(** The files of the disk once every artifact of the list has been written,
    in order. *)
Fixpoint written (files : list GeneratedFile) (dir : string)
    (m : gmap string string) : gmap string string :=
  match files with
  | [] => m
  | f :: rest => written rest dir (<[target dir f := content f]> m)
  end.

Definition invalidDocument : JsError :=
  newError "Failed to parse OpenAPI YAML file: Invalid OpenAPI YAML file: Missing required fields.".

Definition failureLine (e : JsError) : Level * string :=
  (ErrorLevel, "❌ Generation failed: " ++ message e).

Definition parsingLine (yamlFilePath : string) : Level * string :=
  (LogLevel, "Parsing OpenAPI file: " ++ yamlFilePath).

Section PipelineVocabulary.

Variable yaml_load : string -> result JsValue.
Variable generateTypes : JsValue -> result GeneratedFile.
Variable generateStubs : JsValue -> Config -> result (list GeneratedFile).

(** What the parser returns on a disk. *)
Definition parsed (p : string) (disk : FileSystem) : result JsValue :=
  fst (parseOpenApiYaml yaml_load p (mkWorld disk [])).

(** What the parser makes of the bytes of the input file. *)
Definition checkContents (contents : string) : result JsValue :=
  match yaml_load contents with
  | Err e => Err (newError ("Failed to parse OpenAPI YAML file: " ++ message e))
  | Ok doc =>
      if truthy doc && truthy (getProp doc "openapi") then Ok doc
      else Err invalidDocument
  end.

(** The artifacts the two emitters make of what the parser returns. *)
Definition artifactsOf (config : Config) (document : result JsValue)
  : result (list GeneratedFile) :=
  match document with
  | Err e => Err e
  | Ok spec =>
      match generateTypes spec with
      | Err e => Err e
      | Ok typesFile =>
          match generateStubs spec config with
          | Err e => Err e
          | Ok stubFiles => Ok (typesFile :: stubFiles)
          end
      end
  end.

End PipelineVocabulary.

(** A loader that yields the given document, two emitters that yield a
    types file and a router file, and disks that hold the input file. *)
Definition loadsTo (doc : JsValue) : string -> result JsValue := fun _ => Ok doc.

Definition typesArtifact : GeneratedFile :=
  mkGeneratedFile "types.ts" "export {};" "TypeScript type definitions".

Definition workerArtifact : GeneratedFile :=
  mkGeneratedFile "worker.ts" "export default {};" "Main router worker".

Definition emitsTypes : JsValue -> result GeneratedFile := fun _ => Ok typesArtifact.

Definition emitsWorker : JsValue -> Config -> result (list GeneratedFile) :=
  fun _ _ => Ok [workerArtifact].

Definition outConfig : Config :=
  mkConfig "https://api.openai.com/v1" "your-api-key-here" "generated" true.

Definition minimalDocument : JsValue := JObj [("openapi", JStr "3.0.0")].

Definition untitledDocument : JsValue := JObj [("info", JObj [("title", JStr "API")])].

Definition emptyVersionDocument : JsValue := JObj [("openapi", JStr "")].

(** Only the input file. *)
Definition freshDisk : World :=
  mkWorld (mkFS {["api.yaml" := "openapi: 3.0.0"]} ∅) [].

(** The input file, a stale output of an earlier run, and a console that
    already shows a line. *)
Definition usedDisk : World :=
  mkWorld (mkFS (<["generated/types.ts" := "stale"]> {["api.yaml" := "openapi: 3.0.0"]})
                {["generated"]})
          [(LogLevel, "earlier")].

(** The input file, and a directory where the router file should go. *)
Definition blockedDisk : World :=
  mkWorld (mkFS {["api.yaml" := "openapi: 3.0.0"]} {["generated/worker.ts"]}) [].

(** A document whose only operation answers with a schema that is not
    declared. *)
Definition petsDocument : JsValue :=
  JObj
    [("openapi", JStr "3.0.0");
     ("paths",
      JObj
        [("/pets",
          JObj
            [("get",
              JObj
                [("operationId", JStr "listPets");
                 ("responses",
                  JObj
                    [("200",
                      JObj
                        [("content",
                          JObj
                            [("application/json",
                              JObj
                                [("schema",
                                  JObj [("$ref", JStr "#/components/schemas/Missing")])])])])])])])]);
     ("components",
      JObj [("schemas", JObj [("Pet", JObj [("type", JStr "object")])])])].

(** ** For the router and the dispatchers *)

Section RouterVocabulary.
Import Http EnhancedWorker.

(** The groups the router knows: each case label of the switch with the
    worker it forwards to. *)
Definition knownGroups (W : GroupWorkers) : list (string * Handler) :=
  [("assistants", assistantsWorker W); ("audio", audioWorker W);
   ("batches", batchesWorker W); ("chat", chatWorker W);
   ("completions", completionsWorker W); ("embeddings", embeddingsWorker W);
   ("evals", evalsWorker W); ("files", filesWorker W);
   ("fine_tuning", fine_tuningWorker W); ("images", imagesWorker W);
   ("models", modelsWorker W); ("moderations", moderationsWorker W);
   ("organization", organizationWorker W); ("realtime", realtimeWorker W);
   ("responses", responsesWorker W); ("threads", threadsWorker W);
   ("uploads", uploadsWorker W); ("vector_stores", vector_storesWorker W)].

Fixpoint groupNamed (name : string) (groups : list (string * Handler)) : option Handler :=
  match groups with
  | [] => None
  | (n, h) :: rest => if String.eqb name n then Some h else groupNamed name rest
  end.

(** The first path segment of a request: the first non-empty piece of the
    path between slashes, if there is one. *)
Definition firstSegment (p : string) : option string :=
  match pathSegments p with
  | seg :: _ => Some seg
  | [] => None
  end.

(** Routing by the first segment: forward to the group it names, answer
    not-found when no known group has that name. *)
Definition forwardBy (W : GroupWorkers) (segment : option string) : Handler :=
  match segment with
  | Some name =>
      match groupNamed name (knownGroups W) with
      | Some h => h
      | None => fun _ _ _ => ret notFound
      end
  | None => fun _ _ _ => ret notFound
  end.

(** A handler that neither reads nor writes what the module keeps between
    invocations: on the same request and environment it answers the same
    from any two states (so also before and after any other invocations),
    and it hands its state back as it got it. *)
Definition stateless (h : Handler) : Prop :=
  forall request env ctx s1 s2,
    fst (h request env ctx s1) = fst (h request env ctx s2)
    /\ snd (h request env ctx s1) = s1.

(** The state of the module after other invocations, each of them a step
    on the state (a call of [checkRateLimit], of a worker, ...). *)
Definition afterInvocations (between : list (WorkerState -> WorkerState))
    (s : WorkerState) : WorkerState :=
  fold_left (fun st step => step st) between s.

(** The router over the dispatchers of the specification, one route table
    per group name. *)
Definition generatedWorkers (routes : string -> list Dispatch.OperationRoute) : GroupWorkers :=
  mkWorkers
    (Dispatch.groupDispatcher (routes "assistants"))
    (Dispatch.groupDispatcher (routes "audio"))
    (Dispatch.groupDispatcher (routes "batches"))
    (Dispatch.groupDispatcher (routes "chat"))
    (Dispatch.groupDispatcher (routes "completions"))
    (Dispatch.groupDispatcher (routes "embeddings"))
    (Dispatch.groupDispatcher (routes "evals"))
    (Dispatch.groupDispatcher (routes "files"))
    (Dispatch.groupDispatcher (routes "fine_tuning"))
    (Dispatch.groupDispatcher (routes "images"))
    (Dispatch.groupDispatcher (routes "models"))
    (Dispatch.groupDispatcher (routes "moderations"))
    (Dispatch.groupDispatcher (routes "organization"))
    (Dispatch.groupDispatcher (routes "realtime"))
    (Dispatch.groupDispatcher (routes "responses"))
    (Dispatch.groupDispatcher (routes "threads"))
    (Dispatch.groupDispatcher (routes "uploads"))
    (Dispatch.groupDispatcher (routes "vector_stores")).

End RouterVocabulary.

(** A module just loaded, with a clock that stands at 0, and an environment
    that allows one request per minute. *)
Definition initialState : EnhancedWorker.WorkerState :=
  EnhancedWorker.mkState ∅ (fun _ => 0%Z) 0.

Definition strictEnv : Http.Env :=
  Http.mkEnv (Some "sk-test") None None (Some "1") None.

(** ** For the placeholder stub *)

(** The first character of a string. *)
Definition first (s : string) : option ascii :=
  match s with
  | String c _ => Some c
  | EmptyString => None
  end.

Definition anyRequest : Http.Request := Http.mkRequest "POST" "/chat/completions" (fun _ => None).

(** ** For the case conversions *)

Section StringCaseVocabulary.
Import StringUtils StringCase.

(** A unit of a lower-cased, separated name: a lower-case letter, a digit
    or the separator. *)
Definition isLowerSeparated (sep c : N) : bool :=
  ((97 <=? c)%N && (c <=? 122)%N) || isDigit c || (c =? sep)%N.

End StringCaseVocabulary.

(** ** For the sanitizer, the readers and the writer *)

(** A well-formed identifier in code units: not empty, identifier
    characters only, no digit in front. *)
Definition isIdentifier (s : StringUtils.jsstring) : Prop :=
  s <> []
  /\ Forall (fun c => StringUtils.isIdentifierUnit c = true) s
  /\ (forall c rest, s = c :: rest -> StringUtils.isDigit c = false).

(** The line [writeGeneratedFiles] prints after it has written an artifact. *)
Definition generatedLine (f : GeneratedFile) : Level * string :=
  (LogLevel, "Generated: " ++ path f ++ " - " ++ description f).

(** A disk on which no path is both a file and a directory. *)
Definition wellFormed (disk : FileSystem) : Prop :=
  forall q, q ∈ fs_dirs disk -> fs_files disk !! q = None.

(** The last line [generateFromYaml] prints. *)
Definition successLine (config : Config) (files : list GeneratedFile) : Level * string :=
  (LogLevel, "✅ Successfully generated " ++ pretty (length files)
             ++ " files in " ++ outputDir config).


(** The disk once every artifact of the list has been written: the files,
    and the directories made on the way. *)
Fixpoint finalDisk (files : list GeneratedFile) (dir : string) (disk : FileSystem)
  : FileSystem :=
  match files with
  | [] => disk
  | f :: rest =>
      finalDisk rest dir
        (mkFS (<[target dir f := content f]> (fs_files disk))
              ({[dirname (target dir f)]} ∪ fs_dirs disk))
  end.

(** What the writer needs of the disk to get through the list: at each
    artifact, no file where its directory goes and no directory where the
    artifact goes. *)
Fixpoint writable (files : list GeneratedFile) (dir : string) (disk : FileSystem) : Prop :=
  match files with
  | [] => True
  | f :: rest =>
      fs_files disk !! dirname (target dir f) = None
      /\ (target dir f ∉ {[dirname (target dir f)]} ∪ fs_dirs disk)
      /\ writable rest dir
           (mkFS (<[target dir f := content f]> (fs_files disk))
                 ({[dirname (target dir f)]} ∪ fs_dirs disk))
  end.

(** A disk that already holds every artifact's directory and file. *)
Definition settled (files : list GeneratedFile) (dir : string) (disk : FileSystem) : Prop :=
  wellFormed disk
  /\ forall f, In f files ->
       dirname (target dir f) ∈ fs_dirs disk
       /\ is_Some (fs_files disk !! target dir f).

(** The two lines between the parsing line and the writer's. *)
Definition typesLine : Level * string := (LogLevel, "Generating TypeScript types...").
Definition stubsLine : Level * string := (LogLevel, "Generating API client stubs...").


(** ** For [findOperation] *)

Section FindOperationVocabulary.
Import OpenAPI Enhance.

(** [spec.paths || {}], as its entries. *)
Definition pathEntries (spec : OpenAPISpec) : list (string * option PathItem) :=
  match paths spec with Some ps => ps | None => [] end.

(** The path item has, under the method, an operation with this id. *)
Definition declaresAt (pathItem : PathItem) (method wanted : string) : bool :=
  match operationAt pathItem method with
  | Some operation =>
      match operationId operation with
      | Some oid => String.eqb oid wanted
      | None => false
      end
  | None => false
  end.

(** No path item among the entries has the operation, under any method of
    the list. *)
Definition undeclared (entries : list (string * option PathItem)) (ms : list string)
    (wanted : string) : Prop :=
  forall p pathItem m,
    In (p, Some pathItem) entries -> In m ms -> declaresAt pathItem m wanted = false.

End FindOperationVocabulary.

(** A network that answers the chat completion with the given content. *)
Definition completion (content : JsValue) : JsValue :=
  JObj [("choices", JArr [JObj [("message", JObj [("content", content)])]])].

(** ** For the command line *)

Section CliVocabulary.
Import Cli.

(** What [main] prints before it starts the generator. *)
Definition banner (env : ProcessEnv) (yamlFilePath : string) : list (Level * string) :=
  [(LogLevel, "🔧 Configuration:");
   (LogLevel, "  Input file: " ++ yamlFilePath);
   (LogLevel, "  Output directory: " ++ outputDir (config env));
   (LogLevel, "  API URL: " ++ apiUrl (config env));
   (LogLevel, "  Generate Cloudflare Worker: "
              ++ boolText (generateCloudflareWorker (config env)));
   (LogLevel, "  AI Enhancement: " ++ aiEnhancement (config env));
   (LogLevel, EmptyString)].

Definition listedLine (f : GeneratedFile) : Level * string :=
  (LogLevel, "  ✅ " ++ path f ++ " - " ++ description f).

(** What [main] prints after the generator has returned. *)
Definition report (files : list GeneratedFile) : list (Level * string) :=
  app [(LogLevel, EmptyString); (LogLevel, "📁 Generated files:")]
    (app (map listedLine files)
       [(LogLevel, EmptyString);
        (LogLevel, "🎉 Generation completed successfully!");
        (LogLevel, EmptyString);
        (LogLevel, "Next steps:");
        (LogLevel, "1. Review the generated files");
        (LogLevel, "2. Implement the TODO business logic");
        (LogLevel, "3. Deploy to Cloudflare Workers (if applicable)")]).

Definition errorLine (e : JsError) : Level * string :=
  (ErrorLevel, "❌ Error: " ++ message e).

(** The world in which [main] starts the generator. *)
Definition announced (env : ProcessEnv) (yamlFilePath : string) (w : World) : World :=
  mkWorld (fs w) (app (console w) (banner env yamlFilePath)).

(** An environment with the given variables and no other. *)
Definition environment (vars : list (string * string)) : ProcessEnv :=
  fun name =>
    match find (fun kv => String.eqb (fst kv) name) vars with
    | Some kv => Some (snd kv)
    | None => None
    end.

End CliVocabulary.

(** ** For the gates and the rate limiter *)

Section WorkerVocabulary.
Import Http EnhancedWorker WorkerGates.

(** The value a response was given for a header. *)
Definition headerOf (name : string) (response : Response) : option string :=
  match find (fun kv => String.eqb (fst kv) name) (headers response) with
  | Some kv => Some (snd kv)
  | None => None
  end.

(** The origin [handleCors] works with: the [Origin] header, or the empty
    string. *)
Definition originOf (request : Request) : string :=
  Enhance.field_or (header request "Origin") EmptyString.

(** The entries of [ALLOWED_ORIGINS], when it is set. *)
Definition originEntries (env : Env) : option (list string) :=
  match ALLOWED_ORIGINS env with
  | Some s => Some (split_on "," s)
  | None => None
  end.

Definition healthPath (request : Request) : Prop :=
  pathname request = "/health" \/ pathname request = "/health/".

(** The limit [checkRateLimit] works with; [None] is [NaN]. *)
Definition limitOf (env : Env) : option Z :=
  parseInt (Enhance.field_or (RATE_LIMIT_PER_MINUTE env) "60").

(** The key of a client in the window of a time. *)
Definition rateKey (clientIP : string) (now : Z) : string :=
  clientIP ++ ":" ++ pretty (now / 60000 * 60000)%Z.

(** The next reading of the clock. *)
Definition nextReading (s : WorkerState) : Z := clock s (readings s).

(** The entry [checkRateLimit] works with: the client's entry for the
    window of the next reading, or a fresh one. *)
Definition currentEntry (clientIP : string) (s : WorkerState) : RateLimitEntry :=
  default (mkEntry 0 (nextReading s / 60000 * 60000 + 60000))
          (rateLimitStore s !! rateKey clientIP (nextReading s)).

(** [n] calls of [checkRateLimit] for one client, one after the other:
    their results, and the state they leave. *)
Fixpoint repeatedly (n : nat) (clientIP : string) (env : Env) (s : WorkerState)
  : list (result RateLimitResult) * WorkerState :=
  match n with
  | O => ([], s)
  | S k =>
      let (r, s1) := checkRateLimit clientIP env s in
      let (rs, s2) := repeatedly k clientIP env s1 in
      (r :: rs, s2)
  end.

(** A result that admits the request. *)
Definition admits (r : result RateLimitResult) : Prop :=
  r = Ok (mkRate true None).

(** A result that refuses it, with a [retryAfter] of one to sixty seconds. *)
Definition refuses (r : result RateLimitResult) : Prop :=
  exists seconds, r = Ok (mkRate false (Some seconds)) /\ (1 <= seconds <= 60)%Z.

End WorkerVocabulary.

(** A request that carries the given headers. *)
Definition carrying (pathname : string) (hs : list (string * string)) : Http.Request :=
  Http.mkRequest "GET" pathname
    (fun name =>
       match find (fun kv => String.eqb (fst kv) name) hs with
       | Some kv => Some (snd kv)
       | None => None
       end).

(** ** For the custom worker *)

(** The worker's answer, handed on as it is. *)
Definition handedOn (h : EnhancedWorker.Handler) (request : Http.Request) (env : Http.Env)
    (ctx : Http.ExecutionContext) : Eff EnhancedWorker.WorkerState UsageExamples.Reply :=
  let! response := h request env ctx in
  ret (UsageExamples.WorkerReply response).

(** * Properties *)

(** ** [sanitizeIdentifier] *)

Section SanitizeIdentifier.
Import StringUtils.

Lemma isDigit_isIdentifierUnit (c : N) : isDigit c = true -> isIdentifierUnit c = true.
Proof.
  unfold isIdentifierUnit. intros ->. rewrite orb_true_r. reflexivity.
Qed.

Lemma underscore_not_digit : isDigit underscore = false.
Proof. reflexivity. Qed.

Lemma replaceNonIdentifier_units (s : jsstring) :
  Forall (fun c => isIdentifierUnit c = true) (replaceNonIdentifier s).
Proof.
  induction s as [|c s IH]; simpl; constructor; auto.
  destruct (isIdentifierUnit c) eqn:E; [exact E | reflexivity].
Qed.

Lemma replaceNonIdentifier_lookup (s : jsstring) (i : nat) (c : N) :
  s !! i = Some c ->
  replaceNonIdentifier s !! i = Some (if isIdentifierUnit c then c else underscore).
Proof.
  revert i. induction s as [|d s IH]; intros [|i] H; simpl in *; try discriminate.
  - injection H as ->. reflexivity.
  - apply IH, H.
Qed.

Lemma replaceNonIdentifier_head_digit (c : N) (s : jsstring) :
  isDigit c = false ->
  isDigit (if isIdentifierUnit c then c else underscore) = false.
Proof.
  intros H. destruct (isIdentifierUnit c); [exact H | reflexivity].
Qed.

(** C10.  For every input string, [sanitizeIdentifier] returns a non-empty
    string made only of ASCII letters, digits and underscores whose first
    unit is no digit.  Every unit of the input that is no identifier
    character is replaced by an underscore and the others are kept (the
    [body] below), a leading digit gets an underscore in front, and the
    empty string becomes [_empty]. *)
Theorem sanitizeIdentifier_is_identifier (name : jsstring) :
  let r := sanitizeIdentifier name in
  r <> []
  /\ Forall (fun c => isIdentifierUnit c = true) r
  /\ (forall c rest, r = c :: rest -> isDigit c = false)
  /\ exists body : jsstring,
       length body = length name
       /\ (forall i c, name !! i = Some c ->
             body !! i = Some (if isIdentifierUnit c then c else underscore))
       /\ r = match name with
              | [] => units "_empty"
              | c :: _ => if isDigit c then underscore :: body else body
              end.
Proof.
  cbv zeta. unfold sanitizeIdentifier.
  pose proof (replaceNonIdentifier_units name) as Hall.
  destruct name as [|c name].
  - simpl. split; [discriminate|]. split.
    + repeat constructor.
    + split.
      * intros c' rest [= <- _]. reflexivity.
      * exists []. split; [reflexivity|]. split; [|reflexivity].
        intros i c' H. destruct i; discriminate H.
  - assert (Hbody : exists body, body = replaceNonIdentifier (c :: name)) by eauto.
    destruct Hbody as [body Hbody].
    assert (Hlen : length body = length (c :: name)).
    { subst body. unfold replaceNonIdentifier. apply length_map. }
    assert (Hlookup : forall i c', (c :: name) !! i = Some c' ->
              body !! i = Some (if isIdentifierUnit c' then c' else underscore)).
    { intros i c' H. subst body. apply replaceNonIdentifier_lookup, H. }
    rewrite <- Hbody in *.
    destruct (isDigit c) eqn:Hd.
    + assert (Hr : replaceEmpty (prefixLeadingDigit body) = underscore :: body).
      { subst body. simpl. rewrite (isDigit_isIdentifierUnit c Hd), Hd. reflexivity. }
      rewrite Hr. split; [discriminate|]. split.
      * constructor; [reflexivity | exact Hall].
      * split.
        -- intros c' rest [= <- _]. exact underscore_not_digit.
        -- exists body. auto.
    + assert (Hr : replaceEmpty (prefixLeadingDigit body) = body
                  /\ exists rest, body = (if isIdentifierUnit c then c else underscore) :: rest).
      { subst body. simpl.
        rewrite (replaceNonIdentifier_head_digit c name Hd). eauto. }
      destruct Hr as [Hr [rest0 Hshape]].
      rewrite Hr. split; [rewrite Hshape; discriminate|]. split; [exact Hall|].
      split.
      * intros c' rest Heq. rewrite Hshape in Heq. injection Heq as <- _.
        apply (replaceNonIdentifier_head_digit c name Hd).
      * exists body. auto.
Qed.

End SanitizeIdentifier.

(** ** [enhanceWithAI] *)

Section EnhanceWithAI.
Import Enhance.

Variable fetch : FetchRequest -> result FetchResponse.

Lemma enhanceWithAI_without_key config spec operationId w :
  keyMissing config = true ->
  enhanceWithAI fetch config spec operationId w
  = (Ok (JStr (generateBasicStub operationId)),
     mkWorld (fs w)
       (app (console w)
            [(WarnLevel, "⚠️  No API key configured. Skipping AI enhancement.")])).
Proof.
  unfold keyMissing, enhanceWithAI. intros ->. reflexivity.
Qed.

Lemma enhanceWithAI_with_key config spec operationId w :
  keyMissing config = false ->
  enhanceWithAI fetch config spec operationId w
  = match callAIAPI fetch config (buildAIPrompt spec operationId) with
    | Ok code => (Ok code, w)
    | Err e =>
        (Ok (JStr (generateBasicStub operationId)),
         mkWorld (fs w) (app (console w) [failureWarning operationId e]))
    end.
Proof.
  unfold keyMissing, enhanceWithAI. intros ->.
  unfold try_catch, bind, lift, ret.
  destruct (callAIAPI fetch config (buildAIPrompt spec operationId)); reflexivity.
Qed.

(** The ways the call fails: [fetch] rejects, the status is not a 2xx one,
    the body is no JSON, or it is the JSON [null]. *)
Lemma callAIAPI_failures config prompt :
  (forall e, fetch (chatCompletionsRequest config prompt) = Err e ->
             callAIAPI fetch config prompt = Err e)
  /\ (forall response,
        fetch (chatCompletionsRequest config prompt) = Ok response ->
        ok response = false ->
        exists e, callAIAPI fetch config prompt = Err e)
  /\ (forall response e,
        fetch (chatCompletionsRequest config prompt) = Ok response ->
        ok response = true ->
        json response = Err e ->
        callAIAPI fetch config prompt = Err e)
  /\ (forall response,
        fetch (chatCompletionsRequest config prompt) = Ok response ->
        ok response = true ->
        json response = Ok JNull ->
        exists e, callAIAPI fetch config prompt = Err e /\ kind e = TypeError).
Proof.
  unfold callAIAPI. repeat split.
  - intros e ->. reflexivity.
  - intros response -> ->. cbn [negb]. eauto.
  - intros response e -> -> ->. reflexivity.
  - intros response -> -> ->. cbn [negb nullish]. eauto.
Qed.

Lemma callAIAPI_on_json config prompt response data :
  fetch (chatCompletionsRequest config prompt) = Ok response ->
  ok response = true ->
  json response = Ok data ->
  nullish data = false ->
  callAIAPI fetch config prompt
  = Ok (if truthy (contentOf data) then contentOf data
        else JStr (generateBasicStub "unknown")).
Proof.
  unfold callAIAPI, contentOf. intros Hfetch Hok Hjson Hn.
  rewrite Hfetch, Hok, Hjson. cbn [negb]. rewrite Hn.
  replace (optProp data "choices") with (getProp data "choices")
    by (unfold optProp; rewrite Hn; reflexivity).
  destruct (truthy _); reflexivity.
Qed.

(** C5.  Whatever the configuration, the specification, the operation and
    the behaviour of the network, [enhanceWithAI] returns normally (it never
    throws) and leaves the disk alone; and whenever the call to the AI API
    fails, what it returns is the placeholder stub of the operation that was
    asked for. *)
Theorem enhanceWithAI_never_throws config spec operationId w :
  exists code w',
    enhanceWithAI fetch config spec operationId w = (Ok code, w')
    /\ fs w' = fs w
    /\ (forall e,
          callAIAPI fetch config (buildAIPrompt spec operationId) = Err e ->
          code = JStr (generateBasicStub operationId)).
Proof.
  destruct (keyMissing config) eqn:Hkey.
  - rewrite (enhanceWithAI_without_key _ _ _ _ Hkey).
    eexists _, _. split; [reflexivity|]. split; [reflexivity|]. reflexivity.
  - rewrite (enhanceWithAI_with_key _ _ _ _ Hkey).
    destruct (callAIAPI fetch config (buildAIPrompt spec operationId)) as [code|e0].
    + eexists _, _. split; [reflexivity|]. split; [reflexivity|]. discriminate.
    + eexists _, _. split; [reflexivity|]. split; [reflexivity|]. reflexivity.
Qed.

(** C9, as amended.  With a key configured, when the call completes with a
    2xx status and a body that is JSON for a value other than [null] in
    which [choices[0].message.content] is absent (or falsy), [enhanceWithAI]
    returns the placeholder stub of the literal operation id [unknown], and
    prints nothing. *)
Theorem enhanceWithAI_unknown_stub config spec operationId w response data :
  keyMissing config = false ->
  fetch (chatCompletionsRequest config (buildAIPrompt spec operationId)) = Ok response ->
  ok response = true ->
  json response = Ok data ->
  nullish data = false ->
  truthy (contentOf data) = false ->
  enhanceWithAI fetch config spec operationId w
  = (Ok (JStr (generateBasicStub "unknown")), w).
Proof.
  intros Hkey Hfetch Hok Hjson Hnull Hcontent.
  rewrite (enhanceWithAI_with_key _ _ _ _ Hkey).
  rewrite (callAIAPI_on_json _ _ _ _ Hfetch Hok Hjson Hnull), Hcontent.
  reflexivity.
Qed.

End EnhanceWithAI.

Lemma enhanceWithAI_unknown_stub_witness :
  Enhance.enhanceWithAI (answering (Ok (JObj [("choices", JArr [])])))
    keyedConfig emptySpec "listModels" emptyWorld
  = (Ok (JStr (Enhance.generateBasicStub "unknown")), emptyWorld).
Proof.
  apply (enhanceWithAI_unknown_stub (answering (Ok (JObj [("choices", JArr [])])))
           keyedConfig emptySpec "listModels" emptyWorld
           (Enhance.mkFetchResponse 200 "OK" (Ok (JObj [("choices", JArr [])])))
           (JObj [("choices", JArr [])]));
    reflexivity.
Defined.

(** C9, as stated, fails on a body that is the JSON [null]: it holds no
    [choices[0].message.content], the status is 200, and [data.choices]
    throws a [TypeError] that [enhanceWithAI] catches, so the stub returned
    is the one of the requested operation. *)
Lemma enhanceWithAI_null_body_counterexample :
  Enhance.ok (Enhance.mkFetchResponse 200 "OK" (Ok JNull)) = true
  /\ contentOf JNull = JUndefined
  /\ fst (Enhance.enhanceWithAI (answering (Ok JNull))
            keyedConfig emptySpec "listModels" emptyWorld)
     = Ok (JStr (Enhance.generateBasicStub "listModels"))
  /\ Enhance.generateBasicStub "listModels" <> Enhance.generateBasicStub "unknown".
Proof.
  split; [reflexivity|]. split; [reflexivity|]. split; [reflexivity|].
  intros H. vm_compute in H. discriminate H.
Qed.

(** ** The writer *)

Ltac unfold_eff :=
  unfold try_catch, bind, lift, ret, throw,
         console_log, console_warn, console_error, console_print in *.

Lemma append_inj_r (s a b : string) : s ++ a = s ++ b -> a = b.
Proof.
  induction s as [|c s IH]; simpl; intros H; [exact H|].
  injection H as H. apply IH, H.
Qed.

Lemma target_inj dir f g : target dir f = target dir g -> path f = path g.
Proof.
  unfold target. intros H. apply append_inj_r in H.
  apply (append_inj_r "/") in H. exact H.
Qed.

Lemma ensureDirectoryExists_files dirPath w r w' :
  ensureDirectoryExists dirPath w = (r, w') ->
  fs_files (fs w') = fs_files (fs w) /\ console w' = console w.
Proof.
  unfold ensureDirectoryExists, fs_mkdir. unfold_eff.
  destruct (fs_files (fs w) !! dirPath); intros [= <- <-]; auto.
Qed.

Lemma writeFile_cases filePath data w :
  (exists w', writeFile filePath data w = (Ok tt, w')
              /\ fs_files (fs w') = <[filePath := data]> (fs_files (fs w))
              /\ console w' = console w)
  \/ (exists e w', writeFile filePath data w = (Err e, w')
                   /\ fs_files (fs w') = fs_files (fs w)
                   /\ console w' = console w).
Proof.
  unfold writeFile. unfold_eff.
  destruct (ensureDirectoryExists (dirname filePath) w) as [[[]|e] w1] eqn:Hdir;
    apply ensureDirectoryExists_files in Hdir as [Hf Hc].
  - unfold fs_writeFile. destruct (decide (filePath ∈ fs_dirs (fs w1))).
    + right. eexists _, _. split; [reflexivity|]. auto.
    + left. eexists. split; [reflexivity|]. simpl. rewrite Hf. auto.
  - right. eexists _, _. split; [reflexivity|]. auto.
Qed.

Lemma writeEach_ok files dir w w' :
  writeEach files dir w = (Ok tt, w') ->
  fs_files (fs w') = written files dir (fs_files (fs w)).
Proof.
  revert w. induction files as [|f rest IH]; intros w; simpl.
  - unfold ret. intros [= <-]. reflexivity.
  - unfold bind at 1.
    destruct (writeFile_cases (dir ++ "/" ++ path f) (content f) w)
      as [(w1 & -> & Hf & _) | (e & w1 & -> & _)]; [|discriminate].
    unfold bind at 1, console_log, console_print. intros H.
    apply IH in H. rewrite H. simpl. rewrite Hf. reflexivity.
Qed.

Lemma writeGeneratedFiles_ok files dir w w' :
  writeGeneratedFiles files dir w = (Ok tt, w') ->
  fs_files (fs w') = written files dir (fs_files (fs w)).
Proof.
  unfold writeGeneratedFiles, bind.
  destruct (ensureDirectoryExists dir w) as [[[]|e] w1] eqn:Hdir; [|discriminate].
  apply ensureDirectoryExists_files in Hdir as [Hf _].
  intros H. apply writeEach_ok in H. rewrite H, Hf. reflexivity.
Qed.

Lemma written_elsewhere files dir m p :
  (forall f, In f files -> target dir f <> p) ->
  written files dir m !! p = m !! p.
Proof.
  revert m. induction files as [|f rest IH]; intros m H; simpl; [reflexivity|].
  rewrite IH by (intros g Hg; apply H; right; exact Hg).
  apply lookup_insert_ne, H. left. reflexivity.
Qed.

(** After the writer, a path some artifact of the list goes to holds the
    content of the last such artifact, whatever was on the disk. *)
Lemma written_path files dir p :
  (exists f, In f files /\ target dir f = p) ->
  exists g, In g files /\ target dir g = p
            /\ forall m, written files dir m !! p = Some (content g).
Proof.
  induction files as [|h rest IH]; intros (f & Hin & Hf); [destruct Hin|].
  destruct (decide (Exists (fun g => target dir g = p) rest)) as [Hex|Hno].
  - apply Exists_exists in Hex as (g0 & Hg0 & Heq).
    apply list_elem_of_In in Hg0.
    destruct IH as (g & Hg & Hgt & Hm); [eauto|].
    exists g. split; [right; exact Hg|]. split; [exact Hgt|].
    intros m. simpl. apply Hm.
  - assert (Hh : target dir h = p).
    { destruct Hin as [->|Hin]; [exact Hf|].
      exfalso. apply Hno. apply Exists_exists. exists f.
      split; [apply list_elem_of_In, Hin | exact Hf]. }
    exists h. split; [left; reflexivity|]. split; [exact Hh|].
    intros m. simpl. rewrite written_elsewhere.
    + rewrite Hh. apply lookup_insert_eq.
    + intros g Hg Hc. apply Hno. apply Exists_exists. exists g.
      split; [apply list_elem_of_In, Hg | exact Hc].
Qed.

Lemma written_target files dir f :
  In f files ->
  exists g, In g files /\ path g = path f
            /\ forall m, written files dir m !! target dir f = Some (content g).
Proof.
  intros Hin.
  destruct (written_path files dir (target dir f)) as (g & Hg & Hgt & Hm); [eauto|].
  exists g. split; [exact Hg|]. split; [apply (target_inj dir), Hgt | exact Hm].
Qed.

(** ** The pipeline *)

Section PipelineProperties.

Variable yaml_load : string -> result JsValue.
Variable generateTypes : JsValue -> result GeneratedFile.
Variable generateStubs : JsValue -> Config -> result (list GeneratedFile).

(** The parser reads the disk and nothing else, and changes nothing. *)
Lemma parseOpenApiYaml_pure p w :
  parseOpenApiYaml yaml_load p w = (parsed yaml_load p (fs w), w).
Proof.
  unfold parsed, parseOpenApiYaml, fs_readFile. unfold_eff. cbn [fs].
  destruct (fs_files (fs w) !! p) as [contents|].
  - destruct (yaml_load contents) as [doc|e]; [|reflexivity].
    destruct (negb (truthy doc) || negb (truthy (getProp doc "openapi"))); reflexivity.
  - destruct (decide (p ∈ fs_dirs (fs w))); reflexivity.
Qed.

Lemma parsed_contents p disk contents :
  fs_files disk !! p = Some contents ->
  parsed yaml_load p disk = checkContents yaml_load contents.
Proof.
  intros H. unfold parsed, parseOpenApiYaml, checkContents, fs_readFile. unfold_eff.
  cbn [fs]. rewrite H. destruct (yaml_load contents) as [doc|e]; [|reflexivity].
  destruct (truthy doc); [|reflexivity].
  destruct (truthy (getProp doc "openapi")); reflexivity.
Qed.

Lemma parseOpenApiYaml_reads p w contents :
  fs_files (fs w) !! p = Some contents ->
  parseOpenApiYaml yaml_load p w = (checkContents yaml_load contents, w).
Proof.
  intros H. rewrite parseOpenApiYaml_pure, (parsed_contents p (fs w) contents H).
  reflexivity.
Qed.

(** A run that fails before the writer starts prints its failure and leaves
    the disk as it was; otherwise the run is the writer's, on the artifacts
    that the disk at the input path determines. *)
Lemma generateFromYaml_factor config p w :
  match artifactsOf generateTypes generateStubs config (parsed yaml_load p (fs w)) with
  | Err e =>
      exists lines,
        generateFromYaml yaml_load generateTypes generateStubs config p w
        = (Err e, mkWorld (fs w) (app (console w) lines))
  | Ok files =>
      exists w1,
        fs w1 = fs w
        /\ generateFromYaml yaml_load generateTypes generateStubs config p w
           = match writeGeneratedFiles files (outputDir config) w1 with
             | (Ok _, w') =>
                 (Ok files,
                  mkWorld (fs w')
                    (app (console w')
                       [(LogLevel, "✅ Successfully generated " ++ pretty (length files)
                                   ++ " files in " ++ outputDir config)]))
             | (Err e, w') => (Err e, mkWorld (fs w') (app (console w') [failureLine e]))
             end
  end.
Proof.
  unfold artifactsOf.
  unfold generateFromYaml. unfold_eff. rewrite parseOpenApiYaml_pure. cbn [fs].
  destruct (parsed yaml_load p (fs w)) as [spec|e].
  - destruct (generateTypes spec) as [typesFile|e].
    + destruct (generateStubs spec config) as [stubFiles|e].
      * exists (mkWorld (fs w)
                  (app (app (app (console w) [parsingLine p])
                          [(LogLevel, "Generating TypeScript types...")])
                     [(LogLevel, "Generating API client stubs...")])).
        split; [reflexivity|]. cbn [fs console]. unfold parsingLine.
        destruct (writeGeneratedFiles _ _ _) as [[[]|e] w']; reflexivity.
      * eexists. cbn [fs console]. rewrite <- !app_assoc. reflexivity.
    + eexists. cbn [fs console]. rewrite <- !app_assoc. reflexivity.
  - eexists. cbn [fs console]. rewrite <- !app_assoc. reflexivity.
Qed.

(** A document without an [openapi] member has a falsy one. *)
Lemma missing_openapi_is_falsy fields :
  assoc "openapi" fields = None ->
  truthy (JObj fields) && truthy (getProp (JObj fields) "openapi") = false.
Proof. simpl. intros ->. reflexivity. Qed.

(** C6, as amended.  When the value loaded from the input file is falsy
    (an empty document) or its [openapi] member is missing or falsy, the
    parser throws; [generateFromYaml] then fails with that error after
    printing only the parsing line and the failure line, with the disk
    untouched and whatever the two emitters are: neither was started.  When
    the value and its [openapi] member are truthy, the parser returns the
    value unchanged. *)
Theorem parse_boundary config p w contents doc :
  fs_files (fs w) !! p = Some contents ->
  yaml_load contents = Ok doc ->
  (truthy doc && truthy (getProp doc "openapi") = false ->
     parseOpenApiYaml yaml_load p w = (Err invalidDocument, w)
     /\ generateFromYaml yaml_load generateTypes generateStubs config p w
        = (Err invalidDocument,
           mkWorld (fs w) (app (console w) [parsingLine p; failureLine invalidDocument])))
  /\ (truthy doc && truthy (getProp doc "openapi") = true ->
        parseOpenApiYaml yaml_load p w = (Ok doc, w)).
Proof.
  intros Hfile Hload.
  assert (Hparse : forall w0, fs_files (fs w0) !! p = Some contents ->
            parseOpenApiYaml yaml_load p w0
            = (if truthy doc && truthy (getProp doc "openapi")
               then Ok doc else Err invalidDocument, w0)).
  { intros w0 H0. rewrite (parseOpenApiYaml_reads p w0 contents H0).
    unfold checkContents. rewrite Hload. reflexivity. }
  split; intros Htruthy.
  - split.
    + rewrite (Hparse w Hfile), Htruthy. reflexivity.
    + unfold generateFromYaml. unfold_eff.
      rewrite Hparse by exact Hfile. rewrite Htruthy.
      cbn [fs console]. rewrite <- app_assoc. reflexivity.
  - rewrite (Hparse w Hfile), Htruthy. reflexivity.
Qed.


(** C1.  Take two runs whose input files hold the same bytes, on disks and
    consoles that may differ in everything else, and let the first return
    its artifacts.  Then the second either returns the very same list (same
    order, same paths, same contents) and leaves the same content in the
    file of each artifact, or it fails inside the writer, on that same
    list. *)
Theorem generateFromYaml_deterministic config p contents w1 w2 files w1' :
  fs_files (fs w1) !! p = Some contents ->
  fs_files (fs w2) !! p = Some contents ->
  generateFromYaml yaml_load generateTypes generateStubs config p w1 = (Ok files, w1') ->
  (exists w2',
     generateFromYaml yaml_load generateTypes generateStubs config p w2 = (Ok files, w2')
     /\ forall f, In f files ->
          fs_files (fs w2') !! target (outputDir config) f
          = fs_files (fs w1') !! target (outputDir config) f)
  \/ (exists e w2' wr,
        generateFromYaml yaml_load generateTypes generateStubs config p w2 = (Err e, w2')
        /\ fs wr = fs w2
        /\ fst (writeGeneratedFiles files (outputDir config) wr) = Err e).
Proof.
  intros H1 H2 Hrun1.
  pose proof (generateFromYaml_factor config p w1) as F1.
  pose proof (generateFromYaml_factor config p w2) as F2.
  rewrite (parsed_contents p (fs w1) contents H1) in F1.
  rewrite (parsed_contents p (fs w2) contents H2) in F2.
  destruct (artifactsOf generateTypes generateStubs config (checkContents yaml_load contents))
    as [files0|e].
  - destruct F1 as (v1 & Hv1 & F1). destruct F2 as (v2 & Hv2 & F2).
    rewrite F1 in Hrun1.
    destruct (writeGeneratedFiles files0 (outputDir config) v1) as [[[]|e1] u1] eqn:Hw1;
      [|discriminate].
    injection Hrun1 as <- <-.
    destruct (writeGeneratedFiles files0 (outputDir config) v2) as [[[]|e2] u2] eqn:Hw2.
    + left. eexists. split; [exact F2|].
      intros f Hf. simpl.
      rewrite (writeGeneratedFiles_ok _ _ _ _ Hw1), (writeGeneratedFiles_ok _ _ _ _ Hw2).
      destruct (written_target files0 (outputDir config) f Hf) as (g & _ & _ & Hm).
      rewrite !Hm. reflexivity.
    + right. exists e2. eexists. exists v2. split; [exact F2|]. split; [exact Hv2|].
      rewrite Hw2. reflexivity.
  - destruct F1 as [lines F1]. rewrite F1 in Hrun1. discriminate.
Qed.

End PipelineProperties.

(** *** Concrete runs *)

Lemma parse_boundary_witness :
  parseOpenApiYaml (loadsTo untitledDocument) "api.yaml" freshDisk
  = (Err invalidDocument, freshDisk)
  /\ generateFromYaml (loadsTo untitledDocument) emitsTypes emitsWorker
       outConfig "api.yaml" freshDisk
     = (Err invalidDocument,
        mkWorld (fs freshDisk)
          (app (console freshDisk) [parsingLine "api.yaml"; failureLine invalidDocument])).
Proof.
  apply (proj1 (parse_boundary (loadsTo untitledDocument) emitsTypes emitsWorker
                  outConfig "api.yaml" freshDisk "openapi: 3.0.0" untitledDocument
                  eq_refl eq_refl)).
  reflexivity.
Defined.

(** C6, as stated, fails on a document whose [openapi] member is present
    and empty: the parser throws instead of returning it. *)
Lemma parse_present_but_empty_counterexample :
  assoc "openapi" [("openapi", JStr "")] = Some (JStr "")
  /\ fst (parseOpenApiYaml (loadsTo emptyVersionDocument) "api.yaml" freshDisk)
     = Err invalidDocument.
Proof. split; reflexivity. Qed.



Lemma generateFromYaml_deterministic_witness :
  (exists w2',
     generateFromYaml (loadsTo minimalDocument) emitsTypes emitsWorker
       outConfig "api.yaml" usedDisk
     = (Ok [typesArtifact; workerArtifact], w2')
     /\ forall f, In f [typesArtifact; workerArtifact] ->
          fs_files (fs w2') !! target (outputDir outConfig) f
          = fs_files (fs (snd (generateFromYaml (loadsTo minimalDocument) emitsTypes
                                 emitsWorker outConfig "api.yaml" freshDisk)))
              !! target (outputDir outConfig) f)
  \/ (exists e w2' wr,
        generateFromYaml (loadsTo minimalDocument) emitsTypes emitsWorker
          outConfig "api.yaml" usedDisk
        = (Err e, w2')
        /\ fs wr = fs usedDisk
        /\ fst (writeGeneratedFiles [typesArtifact; workerArtifact] (outputDir outConfig) wr)
           = Err e).
Proof.
  apply (generateFromYaml_deterministic (loadsTo minimalDocument) emitsTypes emitsWorker
           outConfig "api.yaml" "openapi: 3.0.0" freshDisk usedDisk
           [typesArtifact; workerArtifact]
           (snd (generateFromYaml (loadsTo minimalDocument) emitsTypes emitsWorker
                   outConfig "api.yaml" freshDisk))).
  - reflexivity.
  - vm_compute. reflexivity.
  - vm_compute. reflexivity.
Defined.

(** ** Broken references *)

Section BrokenReferences.
Import Resolver.

Variable yaml_load : string -> result JsValue.
Variable emitTypes : JsValue -> result GeneratedFile.
Variable generateStubs : JsValue -> Config -> result (list GeneratedFile).

Lemma resolve_intra_document doc ref :
  pointerSegments ref <> None ->
  (exists node, resolve doc ref = Ok node) \/ resolve doc ref = Err (brokenReference ref).
Proof.
  unfold resolve. destruct (pointerSegments ref) as [segments|]; [|congruence].
  intros _. destruct (follow segments doc); eauto.
Qed.

Lemma resolve_broken doc ref segments :
  pointerSegments ref = Some segments ->
  follow segments doc = None ->
  resolve doc ref = Err (brokenReference ref).
Proof. unfold resolve. intros -> ->. reflexivity. Qed.

(** Among intra-document pointers, the error of [resolveAll] is the first
    pointer that does not resolve. *)
Lemma resolveAll_reports_broken doc refs :
  (forall r, In r refs -> pointerSegments r <> None) ->
  (exists r, In r refs /\ resolve doc r = Err (brokenReference r)) ->
  exists offending,
    In offending refs
    /\ resolve doc offending = Err (brokenReference offending)
    /\ resolveAll doc refs = Err (brokenReference offending).
Proof.
  induction refs as [|r0 rest IH]; intros Hintra (r & Hin & Hr); [destruct Hin|].
  simpl. destruct (resolve_intra_document doc r0) as [[node Hok]|Hbroken].
  - apply Hintra. left. reflexivity.
  - rewrite Hok. destruct IH as (offending & Ho & Hres & Hall).
    + intros r' Hr'. apply Hintra. right. exact Hr'.
    + destruct Hin as [->|Hin]; [congruence|]. eauto.
    + exists offending. split; [right; exact Ho|]. split; assumption.
  - rewrite Hbroken. exists r0. split; [left; reflexivity|]. split; [assumption|reflexivity].
Qed.


End BrokenReferences.


(** ** The router *)

Section Router.
Import Http EnhancedWorker.

Lemma pathSegments_nonempty p seg :
  In seg (pathSegments p) -> String.eqb seg "" = false.
Proof.
  unfold pathSegments. intros H. apply filter_In in H as [_ H].
  apply negb_true_iff in H. exact H.
Qed.

Lemma routePrefix_firstSegment p :
  routePrefix p = default "root" (firstSegment p).
Proof.
  unfold routePrefix, firstSegment.
  destruct (pathSegments p) as [|seg rest] eqn:E; [reflexivity|].
  simpl. unfold str_or. rewrite (pathSegments_nonempty p seg); [reflexivity|].
  rewrite E. left. reflexivity.
Qed.

Lemma routeRequest_on_prefix W request env ctx :
  routeRequest W request env ctx
  = match groupNamed (routePrefix (pathname request)) (knownGroups W) with
    | Some h => h request env ctx
    | None => ret notFound
    end.
Proof.
  unfold routeRequest, knownGroups, groupNamed.
  repeat match goal with
         | |- context [String.eqb ?a ?b] => destruct (String.eqb a b); [reflexivity|]
         end.
  reflexivity.
Qed.


(** *** Statelessness *)

Lemma groupDispatcher_stateless routes : stateless (Dispatch.groupDispatcher routes).
Proof.
  intros request env ctx s1 s2. unfold Dispatch.groupDispatcher.
  destruct (find (Dispatch.routeMatches request) routes); split; reflexivity.
Qed.

Lemma groupNamed_In name groups h :
  groupNamed name groups = Some h -> In h (map snd groups).
Proof.
  induction groups as [|[n h0] rest IH]; simpl; [discriminate|].
  destruct (String.eqb name n).
  - intros [= ->]. left. reflexivity.
  - intros H. right. apply IH, H.
Qed.

(** The router keeps no state of its own. *)
Lemma routeRequest_stateless W :
  (forall h, In h (map snd (knownGroups W)) -> stateless h) ->
  stateless (routeRequest W).
Proof.
  intros Hgroups request env ctx s1 s2.
  rewrite routeRequest_on_prefix.
  destruct (groupNamed (routePrefix (pathname request)) (knownGroups W)) as [h|] eqn:E.
  - apply (Hgroups h (groupNamed_In _ _ _ E)).
  - split; reflexivity.
Qed.


End Router.

(** The state the host of the example keeps is real: with a limit of one
    request per minute, [checkRateLimit] admits a client from the initial
    state and refuses the same client from the state that call leaves. *)
Lemma checkRateLimit_keeps_state :
  fst (EnhancedWorker.checkRateLimit "203.0.113.7" strictEnv initialState)
  = Ok (EnhancedWorker.mkRate true None)
  /\ fst (EnhancedWorker.checkRateLimit "203.0.113.7" strictEnv
            (snd (EnhancedWorker.checkRateLimit "203.0.113.7" strictEnv initialState)))
     = Ok (EnhancedWorker.mkRate false (Some 60%Z)).
Proof. split; vm_compute; reflexivity. Qed.

(** ** The placeholder stub *)

Section Placeholder.
Import Http Enhance StubReader.

Lemma strip_prefix_app (p s : string) : strip_prefix p (p ++ s) = Some s.
Proof.
  induction p as [|c p IH]; simpl; [reflexivity|].
  rewrite Ascii.eqb_refl. exact IH.
Qed.

Lemma span_app (f : ascii -> bool) (taken rest : string) :
  string_forallb f taken = true ->
  (forall c, first rest = Some c -> f c = false) ->
  span f (taken ++ rest) = (taken, rest).
Proof.
  intros Hall Hstop. induction taken as [|c taken IH]; simpl in *.
  - destruct rest as [|c rest]; [reflexivity|].
    simpl. rewrite (Hstop c eq_refl). reflexivity.
  - apply andb_true_iff in Hall as [Hc Hall]. rewrite Hc, (IH Hall). reflexivity.
Qed.

Lemma string_forallb_impl (f g : ascii -> bool) (s : string) :
  (forall c, f c = true -> g c = true) ->
  string_forallb f s = true -> string_forallb g s = true.
Proof.
  intros Hfg. induction s as [|c s IH]; simpl; [reflexivity|].
  intros H. apply andb_true_iff in H as [Hc Hs].
  rewrite (Hfg c Hc), (IH Hs). reflexivity.
Qed.

Ltac by_cases_on_ascii c :=
  destruct c as [[] [] [] [] [] [] [] []]; try reflexivity; discriminate.

Lemma identifierPart_not_linefeed c :
  isIdentifierPart c = true -> negb (Ascii.eqb c linefeed) = true.
Proof. by_cases_on_ascii c. Qed.

Lemma identifierPart_commentChar c :
  isIdentifierPart c = true -> isCommentChar c = true.
Proof. by_cases_on_ascii c. Qed.

Lemma identifierPart_plainStringChar c :
  isIdentifierPart c = true -> isPlainStringChar c = true.
Proof. by_cases_on_ascii c. Qed.

Lemma identifierStart_not_digit c :
  isIdentifierStart c = true -> isAsciiDigit c = false.
Proof. by_cases_on_ascii c. Qed.

Lemma identifierStart_part c :
  isIdentifierStart c = true -> isIdentifierPart c = true.
Proof. unfold isIdentifierPart. intros ->. reflexivity. Qed.

Lemma validFunctionName_parts name :
  validFunctionName name = true ->
  string_forallb isIdentifierPart name = true
  /\ (exists c rest, name = String c rest /\ isAsciiDigit c = false)
  /\ existsb (String.eqb name) reservedWords = false
  /\ existsb (String.eqb name) capturedGlobals = false
  /\ existsb (String.eqb name) annotationTypes = false.
Proof.
  unfold validFunctionName. destruct name as [|c rest]; [discriminate|].
  intros H. apply andb_true_iff in H as [H Htypes].
  apply andb_true_iff in H as [H Hcaptured].
  apply andb_true_iff in H as [H Hreserved].
  apply andb_true_iff in H as [Hstart Hrest].
  apply negb_true_iff in Hcaptured, Hreserved, Htypes.
  split; [|split; [|split; [|split]]]; try assumption.
  - simpl. rewrite (identifierStart_part c Hstart), Hrest. reflexivity.
  - exists c, rest. split; [reflexivity|]. apply identifierStart_not_digit, Hstart.
Qed.

(** The stub is the template around three copies of the operation id. *)
Lemma generateBasicStub_shape operationId :
  generateBasicStub operationId
  = (nl ++ "// TODO: Implement ") ++ operationId
    ++ (nl ++ "export async function ") ++ operationId
    ++ afterName ++ operationId ++ afterLiteral.
Proof. reflexivity. Qed.

Lemma readBody_literal name literal :
  string_forallb isPlainStringChar literal = true ->
  readBody name (afterName ++ literal ++ afterLiteral)
  = Handler name (fun _ => notImplemented literal).
Proof.
  intros Hlit. unfold readBody. rewrite strip_prefix_app.
  rewrite (span_app isPlainStringChar literal afterLiteral Hlit).
  - rewrite String.eqb_refl. reflexivity.
  - intros c [= <-]. reflexivity.
Qed.

Lemma readFunction_named name code :
  validFunctionName name = true ->
  first code = Some "("%char ->
  readFunction (name ++ code) = readBody name code.
Proof.
  intros Hname Hcode.
  destruct (validFunctionName_parts name Hname)
    as (Hparts & (c0 & rest0 & Hshape & Hdigit) & Hreserved & Hcaptured & Htypes).
  unfold readFunction. rewrite (span_app isIdentifierPart name code Hparts).
  - destruct code as [|c code']; [discriminate|]. injection Hcode as ->.
    change (cannotFollowName "(") with false.
    change (negb (Ascii.eqb "(" "(")) with false. cbv iota.
    rewrite Hreserved, Hcaptured, Htypes. rewrite Hshape in *. rewrite Hdigit.
    reflexivity.
  - intros c Hc. rewrite Hcode in Hc. injection Hc as <-. reflexivity.
Qed.


End Placeholder.



(** The same happens with a quote in the operation id, which also ends the
    string literal of the body early, and with an operation id that is a
    reserved word or the name of a global the body calls. *)
Lemma placeholder_other_failures :
  StubReader.readStub (Enhance.generateBasicStub ("get" ++ dq ++ "x"))
  = StubReader.Fails "function name"
  /\ StubReader.readStub (Enhance.generateBasicStub "delete")
     = StubReader.Fails "reserved word"
  /\ StubReader.readStub (Enhance.generateBasicStub "Response")
     = StubReader.Fails "shadowed global".
Proof. repeat split. Qed.

(** ** The case conversions and [pluralize] *)

Section StringCaseProperties.
Import StringUtils StringCase.

Ltac split_units :=
  repeat match goal with
         | |- context [(?a <=? ?b)%N] => destruct (N.leb_spec a b)
         | |- context [(?a =? ?b)%N] => destruct (N.eqb_spec a b)
         | H : context [(?a <=? ?b)%N] |- _ => destruct (N.leb_spec a b)
         | H : context [(?a =? ?b)%N] |- _ => destruct (N.eqb_spec a b)
         end;
  simpl in *; try reflexivity; try discriminate; try lia.

Lemma alnum_lowerUnit c : isAlnumUnit c = true -> isAlnumUnit (lowerUnit c) = true.
Proof. unfold isAlnumUnit, lowerUnit, isDigit. intros H. split_units. Qed.

Lemma alnum_upperUnit c : isAlnumUnit c = true -> isAlnumUnit (upperUnit c) = true.
Proof. unfold isAlnumUnit, upperUnit, isDigit. intros H. split_units. Qed.

Lemma lowerUnit_idempotent c : lowerUnit (lowerUnit c) = lowerUnit c.
Proof. unfold lowerUnit. split_units. Qed.

Lemma upperUnit_idempotent c : upperUnit (upperUnit c) = upperUnit c.
Proof. unfold upperUnit. split_units. Qed.

Lemma alnum_not_separator c :
  isAlnumUnit c = true -> c <> underscore /\ c <> hyphen.
Proof. unfold isAlnumUnit, isDigit, underscore, hyphen. intros H. split; split_units. Qed.

Lemma replaceNonAlnum_alnum sep s :
  Forall (fun c => isAlnumUnit c = true) s -> replaceNonAlnum sep s = s.
Proof.
  unfold replaceNonAlnum. induction 1 as [|c s Hc _ IH]; simpl; [reflexivity|].
  rewrite Hc, IH. reflexivity.
Qed.

Lemma replaceNonAlnum_units sep s :
  Forall (fun c => c = sep \/ isAlnumUnit c = true) (replaceNonAlnum sep s).
Proof.
  unfold replaceNonAlnum. induction s as [|c s IH]; simpl; constructor; auto.
  destruct (isAlnumUnit c) eqn:E; auto.
Qed.

(** *** Lower-cased, separated names *)

Lemma lower_replace_unit sep c :
  (sep = underscore \/ sep = hyphen) ->
  isLowerSeparated sep (lowerUnit (if isAlnumUnit c then c else sep)) = true.
Proof.
  unfold isLowerSeparated, lowerUnit, isAlnumUnit, isDigit, underscore, hyphen.
  intros [-> | ->]; split_units.
Qed.

Lemma lower_replace_fixed sep c :
  (sep = underscore \/ sep = hyphen) ->
  isLowerSeparated sep c = true ->
  lowerUnit (if isAlnumUnit c then c else sep) = c.
Proof.
  unfold isLowerSeparated, lowerUnit, isAlnumUnit, isDigit, underscore, hyphen.
  intros [-> | ->] H; split_units.
Qed.

Lemma lower_replace_shape sep s :
  (sep = underscore \/ sep = hyphen) ->
  let r := toLowerCaseAscii (replaceNonAlnum sep s) in
  length r = length s
  /\ Forall (fun c => isLowerSeparated sep c = true) r
  /\ (Forall (fun c => isLowerSeparated sep c = true) s -> r = s)
  /\ toLowerCaseAscii (replaceNonAlnum sep r) = r.
Proof.
  intros Hsep. cbv zeta. unfold toLowerCaseAscii, replaceNonAlnum.
  assert (Hall : Forall (fun c => isLowerSeparated sep c = true)
                   (map lowerUnit (map (fun c => if isAlnumUnit c then c else sep) s))).
  { induction s as [|c s IH]; simpl; constructor; [|exact IH].
    apply lower_replace_unit, Hsep. }
  assert (Hfix : forall l, Forall (fun c => isLowerSeparated sep c = true) l ->
                   map lowerUnit (map (fun c => if isAlnumUnit c then c else sep) l) = l).
  { induction 1 as [|c l Hc _ IH]; simpl; [reflexivity|].
    rewrite (lower_replace_fixed sep c Hsep Hc), IH. reflexivity. }
  split; [rewrite !length_map; reflexivity|].
  split; [exact Hall|]. split; [apply Hfix|]. apply Hfix, Hall.
Qed.

(** X4.  [toSnakeCase] keeps the length of its input, returns lower-case
    letters, digits and underscores only, leaves such a string as it is,
    and so is idempotent. *)
Theorem toSnakeCase_shape (s : jsstring) :
  length (toSnakeCase s) = length s
  /\ Forall (fun c => isLowerSeparated underscore c = true) (toSnakeCase s)
  /\ (Forall (fun c => isLowerSeparated underscore c = true) s -> toSnakeCase s = s)
  /\ toSnakeCase (toSnakeCase s) = toSnakeCase s.
Proof. apply (lower_replace_shape underscore s). left. reflexivity. Qed.

(** X3.  [toKebabCase] keeps the length of its input, returns lower-case
    letters, digits and hyphens only, leaves such a string as it is, and so
    is idempotent. *)
Theorem toKebabCase_shape (s : jsstring) :
  length (toKebabCase s) = length s
  /\ Forall (fun c => isLowerSeparated hyphen c = true) (toKebabCase s)
  /\ (Forall (fun c => isLowerSeparated hyphen c = true) s -> toKebabCase s = s)
  /\ toKebabCase (toKebabCase s) = toKebabCase s.
Proof. apply (lower_replace_shape hyphen s). right. reflexivity. Qed.

(** *** Words *)

Lemma split_cons sep s : exists w ws, split sep s = w :: ws.
Proof.
  induction s as [|c s (w & ws & IH)]; simpl; [eauto|].
  destruct (c =? sep)%N; [eauto|]. rewrite IH. eauto.
Qed.

Lemma split_words sep (P : N -> Prop) s :
  Forall (fun c => c = sep \/ P c) s ->
  (forall c, P c -> c <> sep) ->
  Forall (Forall P) (split sep s).
Proof.
  intros Hall Hsep. induction Hall as [|c s Hc _ IH]; simpl.
  - repeat constructor.
  - destruct (N.eqb_spec c sep) as [->|Hne].
    + constructor; [constructor | exact IH].
    + destruct (split sep s) as [|w ws]; [repeat constructor; tauto|].
      inversion IH; subst. constructor; [|assumption].
      constructor; [tauto | assumption].
Qed.

Lemma split_length sep s : length (concat (split sep s)) <= length s.
Proof.
  induction s as [|c s IH]; simpl; [lia|].
  destruct (c =? sep)%N; simpl; [lia|].
  destruct (split sep s) as [|w ws]; simpl in *; lia.
Qed.

Lemma split_without_separator sep s :
  Forall (fun c => c <> sep) s -> split sep s = [s].
Proof.
  induction 1 as [|c s Hc _ IH]; simpl; [reflexivity|].
  destruct (N.eqb_spec c sep); [contradiction|]. rewrite IH. reflexivity.
Qed.

Lemma concat_imap_length (f : nat -> jsstring -> jsstring) ws :
  (forall i w, length (f i w) = length w) ->
  length (concat (imap f ws)) = length (concat ws).
Proof.
  revert f. induction ws as [|w ws IH]; intros f Hf; simpl; [reflexivity|].
  rewrite !length_app, Hf. f_equal. apply IH. intros i w'. apply Hf.
Qed.

Lemma concat_imap_Forall (P : N -> Prop) (f : nat -> jsstring -> jsstring) ws :
  (forall i w, Forall P w -> Forall P (f i w)) ->
  Forall (Forall P) ws ->
  Forall P (concat (imap f ws)).
Proof.
  revert f. induction ws as [|w ws IH]; intros f Hf Hws; simpl; [constructor|].
  inversion Hws; subst. apply Forall_app. split; [apply Hf; assumption|].
  apply IH; [|assumption]. intros i w'. apply Hf.
Qed.

Lemma toLowerCaseAscii_alnum w :
  Forall (fun c => isAlnumUnit c = true) w ->
  Forall (fun c => isAlnumUnit c = true) (toLowerCaseAscii w).
Proof.
  unfold toLowerCaseAscii. induction 1; simpl; constructor; auto using alnum_lowerUnit.
Qed.

Lemma capitalizeWord_alnum w :
  Forall (fun c => isAlnumUnit c = true) w ->
  Forall (fun c => isAlnumUnit c = true) (capitalizeWord w).
Proof.
  unfold capitalizeWord. intros [|c w' Hc Hw]; simpl; [constructor|].
  constructor; [apply alnum_upperUnit, Hc | apply toLowerCaseAscii_alnum, Hw].
Qed.

Lemma capitalizeWord_length w : length (capitalizeWord w) = length w.
Proof.
  unfold capitalizeWord, toLowerCaseAscii. destruct w; simpl; [reflexivity|].
  rewrite length_map. reflexivity.
Qed.

Lemma capitalizeWord_idempotent w : capitalizeWord (capitalizeWord w) = capitalizeWord w.
Proof.
  unfold capitalizeWord, toLowerCaseAscii. destruct w as [|c w]; simpl; [reflexivity|].
  rewrite upperUnit_idempotent. f_equal.
  induction w as [|d w IH]; simpl; [reflexivity|].
  rewrite lowerUnit_idempotent, IH. reflexivity.
Qed.

Lemma words_alnum s :
  Forall (Forall (fun c => isAlnumUnit c = true))
    (split underscore (replaceNonAlnum underscore s)).
Proof.
  apply split_words; [apply replaceNonAlnum_units|].
  intros c Hc. apply alnum_not_separator, Hc.
Qed.

Lemma alnum_single_word s :
  Forall (fun c => isAlnumUnit c = true) s ->
  split underscore (replaceNonAlnum underscore s) = [s].
Proof.
  intros H. rewrite (replaceNonAlnum_alnum _ _ H). apply split_without_separator.
  eapply Forall_impl; [exact H|]. intros c Hc. apply alnum_not_separator, Hc.
Qed.

Lemma replaceNonAlnum_length sep s : length (replaceNonAlnum sep s) = length s.
Proof. apply length_map. Qed.

(** X1.  [toCamelCase] returns letters and digits only and never more units
    than it was given.  It lower-cases a name without separators
    altogether, capitals included, so applying it a second time lower-cases
    the camel case the first application produced. *)
Theorem toCamelCase_shape (s : jsstring) :
  Forall (fun c => isAlnumUnit c = true) (toCamelCase s)
  /\ length (toCamelCase s) <= length s
  /\ (Forall (fun c => isAlnumUnit c = true) s -> toCamelCase s = toLowerCaseAscii s)
  /\ toCamelCase (toCamelCase s) = toLowerCaseAscii (toCamelCase s).
Proof.
  assert (Halnum : Forall (fun c => isAlnumUnit c = true) (toCamelCase s)).
  { unfold toCamelCase. apply concat_imap_Forall; [|apply words_alnum].
    intros i w Hw. destruct (Nat.eqb i 0);
      [apply toLowerCaseAscii_alnum | apply capitalizeWord_alnum]; exact Hw. }
  assert (Hsingle : forall t, Forall (fun c => isAlnumUnit c = true) t ->
                      toCamelCase t = toLowerCaseAscii t).
  { intros t Ht. unfold toCamelCase. rewrite (alnum_single_word t Ht). simpl.
    apply app_nil_r. }
  split; [exact Halnum|]. split; [|split; [apply Hsingle | apply Hsingle, Halnum]].
  unfold toCamelCase. rewrite concat_imap_length.
  - etransitivity; [apply split_length|]. rewrite replaceNonAlnum_length. lia.
  - intros i w. destruct (Nat.eqb i 0); [apply length_map | apply capitalizeWord_length].
Qed.

Lemma concat_map_Forall (P : N -> Prop) (f : jsstring -> jsstring) ws :
  (forall w, Forall P w -> Forall P (f w)) ->
  Forall (Forall P) ws ->
  Forall P (concat (map f ws)).
Proof.
  intros Hf. induction 1 as [|w ws Hw _ IH]; simpl; [constructor|].
  apply Forall_app. split; [apply Hf, Hw | exact IH].
Qed.

Lemma concat_map_length (f : jsstring -> jsstring) ws :
  (forall w, length (f w) = length w) ->
  length (concat (map f ws)) = length (concat ws).
Proof.
  intros Hf. induction ws as [|w ws IH]; simpl; [reflexivity|].
  rewrite !length_app, Hf, IH. reflexivity.
Qed.

(** X2.  [toPascalCase] returns letters and digits only and never more units
    than it was given.  A name without separators keeps one capital at
    most, its first unit; so a second application undoes the inner capitals
    of the first. *)
Theorem toPascalCase_shape (s : jsstring) :
  Forall (fun c => isAlnumUnit c = true) (toPascalCase s)
  /\ length (toPascalCase s) <= length s
  /\ (Forall (fun c => isAlnumUnit c = true) s -> toPascalCase s = capitalizeWord s)
  /\ toPascalCase (toPascalCase s) = capitalizeWord (toPascalCase s)
  /\ toPascalCase (toPascalCase (toPascalCase s)) = toPascalCase (toPascalCase s).
Proof.
  assert (Halnum : forall t, Forall (fun c => isAlnumUnit c = true) (toPascalCase t)).
  { intros t. unfold toPascalCase. apply concat_map_Forall; [|apply words_alnum].
    intros w Hw. apply capitalizeWord_alnum, Hw. }
  assert (Hsingle : forall t, Forall (fun c => isAlnumUnit c = true) t ->
                      toPascalCase t = capitalizeWord t).
  { intros t Ht. unfold toPascalCase. rewrite (alnum_single_word t Ht). simpl.
    apply app_nil_r. }
  split; [apply Halnum|]. split; [|split; [apply Hsingle|split]].
  - unfold toPascalCase. rewrite (concat_map_length _ _ capitalizeWord_length).
    etransitivity; [apply split_length|]. rewrite replaceNonAlnum_length. lia.
  - apply Hsingle, Halnum.
  - rewrite (Hsingle (toPascalCase (toPascalCase s)) (Halnum _)).
    rewrite (Hsingle (toPascalCase s) (Halnum _)). apply capitalizeWord_idempotent.
Qed.

(** *** Plurals *)

Lemma startsWith_app p rest : startsWith p (app p rest) = true.
Proof.
  induction p as [|a p IH]; simpl; [reflexivity|]. rewrite N.eqb_refl. exact IH.
Qed.

Lemma endsWith_app suffix stem : endsWith suffix (app stem suffix) = true.
Proof. unfold endsWith. rewrite rev_app_distr. apply startsWith_app. Qed.

Lemma endsWith_unit c word :
  endsWith [c] word = true -> exists stem, word = app stem [c].
Proof.
  unfold endsWith. simpl. destruct (rev word) as [|d t] eqn:E; [discriminate|].
  intros H. apply andb_true_iff in H as [H _]. apply N.eqb_eq in H. subst d.
  exists (rev t). rewrite <- (rev_involutive word), E. reflexivity.
Qed.

(** X7.  [pluralize] always returns a word that ends in [s] and is one or two
    units longer than its input.  A word that ends in [y] loses the [y] and
    gets [ies]; any other word is a prefix of its plural. *)
Theorem pluralize_shape (word : jsstring) :
  endsWith (units "s") (pluralize word) = true
  /\ (length (pluralize word) = length word + 1
      \/ length (pluralize word) = length word + 2)
  /\ (endsWith (units "y") word = true ->
        exists stem, word = app stem (units "y")
                     /\ pluralize word = app stem (units "ies"))
  /\ (endsWith (units "y") word = false -> startsWith word (pluralize word) = true).
Proof.
  unfold pluralize. destruct (endsWith (units "y") word) eqn:Hy.
  - destruct (endsWith_unit _ _ Hy) as [stem ->].
    rewrite removelast_last.
    split; [|split; [|split]].
    + change (units "ies") with (app (units "ie") (units "s")).
      rewrite app_assoc. apply endsWith_app.
    + right. rewrite !length_app. simpl. lia.
    + intros _. exists stem. split; reflexivity.
    + discriminate.
  - split; [|split; [|split]].
    + destruct (_ || _).
      * change (units "es") with (app (units "e") (units "s")).
        rewrite app_assoc. apply endsWith_app.
      * apply endsWith_app.
    + destruct (_ || _); rewrite length_app; simpl; lia.
    + discriminate.
    + intros _. destruct (_ || _); apply startsWith_app.
Qed.

End StringCaseProperties.

(** ** More on [sanitizeIdentifier] *)

Section SanitizeIdentifierMore.
Import StringUtils.

Lemma replaceNonIdentifier_fixed s :
  Forall (fun c => isIdentifierUnit c = true) s -> replaceNonIdentifier s = s.
Proof.
  unfold replaceNonIdentifier. induction 1 as [|c s Hc _ IH]; simpl; [reflexivity|].
  rewrite Hc, IH. reflexivity.
Qed.

Lemma sanitizeIdentifier_fixed s : isIdentifier s -> sanitizeIdentifier s = s.
Proof.
  intros (Hne & Hall & Hhead). unfold sanitizeIdentifier.
  rewrite (replaceNonIdentifier_fixed s Hall).
  destruct s as [|c rest]; [congruence|]. simpl.
  rewrite (Hhead c rest eq_refl). reflexivity.
Qed.

Lemma sanitizeIdentifier_isIdentifier name : isIdentifier (sanitizeIdentifier name).
Proof.
  unfold sanitizeIdentifier, isIdentifier.
  pose proof (replaceNonIdentifier_units name) as Hall.
  destruct name as [|c name].
  - simpl. split; [discriminate|]. split; [repeat constructor|].
    intros c' rest [= <- _]. reflexivity.
  - destruct (isDigit c) eqn:Hd.
    + assert (Hr : replaceEmpty (prefixLeadingDigit (replaceNonIdentifier (c :: name)))
                   = underscore :: replaceNonIdentifier (c :: name)).
      { simpl. rewrite (isDigit_isIdentifierUnit c Hd), Hd. reflexivity. }
      rewrite Hr. split; [discriminate|]. split; [constructor; [reflexivity|exact Hall]|].
      intros c' rest [= <- _]. reflexivity.
    + assert (Hr : replaceEmpty (prefixLeadingDigit (replaceNonIdentifier (c :: name)))
                   = replaceNonIdentifier (c :: name)).
      { simpl. rewrite (replaceNonIdentifier_head_digit c name Hd). reflexivity. }
      rewrite Hr. split; [discriminate|]. split; [exact Hall|].
      intros c' rest [= <- _]. apply (replaceNonIdentifier_head_digit c name Hd).
Qed.

(** X5.  [sanitizeIdentifier] is idempotent, and the strings it leaves as they
    are are exactly the well-formed identifiers. *)
Theorem sanitizeIdentifier_idempotent (name : jsstring) :
  sanitizeIdentifier (sanitizeIdentifier name) = sanitizeIdentifier name
  /\ (sanitizeIdentifier name = name <-> isIdentifier name).
Proof.
  split.
  - apply sanitizeIdentifier_fixed, sanitizeIdentifier_isIdentifier.
  - split.
    + intros H. rewrite <- H. apply sanitizeIdentifier_isIdentifier.
    + apply sanitizeIdentifier_fixed.
Qed.

(** X6.  [sanitizeIdentifier] does not keep names apart: two names that differ
    in one unit only, which in both is no identifier character, get the
    same identifier. *)
Theorem sanitizeIdentifier_collision (before after : jsstring) (c1 c2 : N) :
  isIdentifierUnit c1 = false ->
  isIdentifierUnit c2 = false ->
  sanitizeIdentifier (app before (c1 :: after))
  = sanitizeIdentifier (app before (c2 :: after)).
Proof.
  intros H1 H2. unfold sanitizeIdentifier, replaceNonIdentifier.
  rewrite !map_app. simpl. rewrite H1, H2. reflexivity.
Qed.

End SanitizeIdentifierMore.

Lemma sanitizeIdentifier_collision_witness :
  StringUtils.sanitizeIdentifier (app (StringUtils.units "list") (45%N :: StringUtils.units "models"))
  = StringUtils.sanitizeIdentifier (app (StringUtils.units "list") (46%N :: StringUtils.units "models")).
Proof.
  apply (sanitizeIdentifier_collision (StringUtils.units "list") (StringUtils.units "models")
           45%N 46%N); reflexivity.
Defined.

(** ** The readers and the writer, file by file *)

Lemma fs_mkdir_ok dirPath w :
  fs_files (fs w) !! dirPath = None ->
  ensureDirectoryExists dirPath w
  = (Ok tt, mkWorld (mkFS (fs_files (fs w)) ({[dirPath]} ∪ fs_dirs (fs w))) (console w)).
Proof.
  intros H. unfold ensureDirectoryExists, fs_mkdir. unfold_eff. rewrite H. reflexivity.
Qed.

Lemma ensureDirectoryExists_inv dirPath w w' :
  ensureDirectoryExists dirPath w = (Ok tt, w') ->
  fs_files (fs w) !! dirPath = None
  /\ w' = mkWorld (mkFS (fs_files (fs w)) ({[dirPath]} ∪ fs_dirs (fs w))) (console w).
Proof.
  unfold ensureDirectoryExists, fs_mkdir. unfold_eff.
  destruct (fs_files (fs w) !! dirPath); [discriminate|].
  intros [= <-]. split; reflexivity.
Qed.

Lemma ensureDirectoryExists_dirs dirPath w r w' :
  ensureDirectoryExists dirPath w = (r, w') ->
  fs_dirs (fs w') = fs_dirs (fs w) \/ fs_dirs (fs w') = {[dirPath]} ∪ fs_dirs (fs w).
Proof.
  unfold ensureDirectoryExists, fs_mkdir. unfold_eff.
  destruct (fs_files (fs w) !! dirPath); intros [= <- <-]; auto.
Qed.

(** What a successful [writeFile] found and what it left. *)
Lemma writeFile_inv filePath data w w' :
  writeFile filePath data w = (Ok tt, w') ->
  fs_files (fs w) !! dirname filePath = None
  /\ (filePath ∉ {[dirname filePath]} ∪ fs_dirs (fs w))
  /\ w' = mkWorld (mkFS (<[filePath := data]> (fs_files (fs w)))
                        ({[dirname filePath]} ∪ fs_dirs (fs w)))
                  (console w).
Proof.
  unfold writeFile. unfold try_catch, bind.
  destruct (ensureDirectoryExists (dirname filePath) w) as [[[]|e] w1] eqn:Hdir.
  - apply ensureDirectoryExists_inv in Hdir as [Hnone ->].
    unfold fs_writeFile. cbn [fs fs_dirs fs_files console].
    destruct (decide (filePath ∈ {[dirname filePath]} ∪ fs_dirs (fs w))).
    + unfold throw. discriminate.
    + intros [= <-]. auto.
  - unfold throw. discriminate.
Qed.

Lemma writeFile_ok filePath data w :
  fs_files (fs w) !! dirname filePath = None ->
  filePath ∉ {[dirname filePath]} ∪ fs_dirs (fs w) ->
  writeFile filePath data w
  = (Ok tt, mkWorld (mkFS (<[filePath := data]> (fs_files (fs w)))
                          ({[dirname filePath]} ∪ fs_dirs (fs w)))
                    (console w)).
Proof.
  intros Hnone Hfree. unfold writeFile. unfold try_catch, bind.
  rewrite (fs_mkdir_ok _ _ Hnone). unfold fs_writeFile.
  cbn [fs fs_dirs fs_files console].
  destruct (decide (filePath ∈ {[dirname filePath]} ∪ fs_dirs (fs w))); [contradiction|].
  reflexivity.
Qed.



(** X9.  [fileExists] never throws and never changes anything; it answers
    [true] exactly for a path that is a file or a directory. *)
Theorem fileExists_total filePath w :
  exists b,
    fileExists filePath w = (Ok b, w)
    /\ (b = true <->
        is_Some (fs_files (fs w) !! filePath) \/ filePath ∈ fs_dirs (fs w)).
Proof.
  unfold fileExists, fs_access. unfold_eff.
  destruct (fs_files (fs w) !! filePath) as [data|] eqn:E.
  - exists true. split; [reflexivity|]. split; [eauto|reflexivity].
  - destruct (decide (filePath ∈ fs_dirs (fs w))) as [Hin|Hout].
    + exists true. split; [reflexivity|]. split; [auto|reflexivity].
    + exists false. split; [reflexivity|]. split; [discriminate|].
      intros [[x Hx]|Hin]; [discriminate | contradiction].
Qed.

(** ** The writer, list by list *)

Lemma written_app files1 files2 dir m :
  written (app files1 files2) dir m = written files2 dir (written files1 dir m).
Proof.
  revert m. induction files1 as [|f rest IH]; intros m; simpl; [reflexivity|]. apply IH.
Qed.

Lemma written_keeps files dir m q :
  is_Some (m !! q) -> is_Some (written files dir m !! q).
Proof.
  revert m. induction files as [|f rest IH]; intros m H; simpl; [exact H|].
  apply IH. apply lookup_insert_is_Some.
  destruct (decide (target dir f = q)); [left; assumption | right; split; assumption].
Qed.

(** How far [writeEach] gets. *)
Lemma writeEach_progress files dir w :
  exists done rest,
    files = app done rest
    /\ fs_files (fs (snd (writeEach files dir w))) = written done dir (fs_files (fs w))
    /\ console (snd (writeEach files dir w)) = app (console w) (map generatedLine done)
    /\ (fst (writeEach files dir w) = Ok tt -> rest = []).
Proof.
  revert w. induction files as [|f files IH]; intros w.
  - exists [], []. simpl. rewrite app_nil_r. auto.
  - destruct (writeFile_cases (dir ++ "/" ++ path f) (content f) w)
      as [(w1 & Hw & Hf & Hc) | (e & w1 & Hw & Hf & Hc)].
    + assert (Hstep : writeEach (f :: files) dir w
                      = writeEach files dir
                          (mkWorld (fs w1) (app (console w1) [generatedLine f]))).
      { simpl. unfold bind at 1. rewrite Hw. reflexivity. }
      rewrite Hstep.
      destruct (IH (mkWorld (fs w1) (app (console w1) [generatedLine f])))
        as (done & rest & Hsplit & Hfiles & Hcons & Hok).
      exists (f :: done), rest. split; [rewrite Hsplit; reflexivity|].
      split; [|split].
      * rewrite Hfiles. simpl. rewrite Hf. reflexivity.
      * rewrite Hcons. simpl. rewrite Hc, <- app_assoc. reflexivity.
      * exact Hok.
    + assert (Hstep : writeEach (f :: files) dir w = (Err e, w1)).
      { simpl. unfold bind at 1. rewrite Hw. reflexivity. }
      rewrite Hstep. exists [], (f :: files). simpl. rewrite Hf, Hc, app_nil_r.
      split; [reflexivity|]. split; [reflexivity|]. split; [reflexivity|]. discriminate.
Qed.

Lemma writeGeneratedFiles_front files dir w :
  exists done rest,
    files = app done rest
    /\ fs_files (fs (snd (writeGeneratedFiles files dir w)))
       = written done dir (fs_files (fs w))
    /\ console (snd (writeGeneratedFiles files dir w))
       = app (console w) (map generatedLine done)
    /\ (fst (writeGeneratedFiles files dir w) = Ok tt -> rest = []).
Proof.
  unfold writeGeneratedFiles, bind.
  destruct (ensureDirectoryExists dir w) as [[[]|e] w1] eqn:Hdir;
    apply ensureDirectoryExists_files in Hdir as [Hf Hc].
  - destruct (writeEach_progress files dir w1) as (done & rest & Hsplit & Hfiles & Hcons & Hok).
    exists done, rest. rewrite Hfiles, Hcons, Hf, Hc. auto.
  - exists [], files. simpl. rewrite Hf, Hc, app_nil_r.
    split; [reflexivity|]. split; [reflexivity|]. split; [reflexivity|]. discriminate.
Qed.



(** *** Writing into the output of an earlier run *)

Lemma writeEach_writable files dir w w' :
  writeEach files dir w = (Ok tt, w') ->
  writable files dir (fs w) /\ fs w' = finalDisk files dir (fs w).
Proof.
  revert w. induction files as [|f files IH]; intros w; simpl.
  - unfold ret. intros [= <-]. auto.
  - unfold bind at 1.
    destruct (writeFile (dir ++ "/" ++ path f) (content f) w) as [[[]|e] w1] eqn:Hw;
      [|discriminate].
    apply writeFile_inv in Hw as (Hnone & Hfree & ->).
    unfold bind at 1, console_log, console_print. cbn [fs console].
    intros H. apply IH in H as [Hrest Hfinal]. cbn [fs] in *.
    split; [|exact Hfinal]. split; [exact Hnone|]. split; [exact Hfree | exact Hrest].
Qed.

Lemma writable_writeEach files dir w :
  writable files dir (fs w) ->
  exists w', writeEach files dir w = (Ok tt, w') /\ fs w' = finalDisk files dir (fs w).
Proof.
  revert w. induction files as [|f files IH]; intros w; simpl.
  - intros _. eexists. split; reflexivity.
  - intros (Hnone & Hfree & Hrest). unfold bind at 1.
    change (dir ++ "/" ++ path f) with (target dir f).
    rewrite (writeFile_ok _ _ _ Hnone Hfree).
    unfold bind at 1, console_log, console_print. cbn [fs console].
    apply (IH (mkWorld _ _)). exact Hrest.
Qed.

Lemma finalDisk_files files dir disk :
  fs_files (finalDisk files dir disk) = written files dir (fs_files disk).
Proof.
  revert disk. induction files as [|f files IH]; intros disk; simpl; [reflexivity|].
  rewrite IH. reflexivity.
Qed.

Lemma finalDisk_dirs_mono files dir disk q :
  q ∈ fs_dirs disk -> q ∈ fs_dirs (finalDisk files dir disk).
Proof.
  revert disk. induction files as [|f files IH]; intros disk H; simpl; [exact H|].
  apply IH. simpl. apply elem_of_union. right. exact H.
Qed.

Lemma wellFormed_step disk t d data :
  wellFormed disk ->
  fs_files disk !! d = None ->
  t ∉ {[d]} ∪ fs_dirs disk ->
  wellFormed (mkFS (<[t := data]> (fs_files disk)) ({[d]} ∪ fs_dirs disk)).
Proof.
  intros Hwf Hnone Hfree q Hq. simpl in *.
  assert (q <> t) by (intros ->; contradiction).
  rewrite lookup_insert_ne by congruence.
  apply elem_of_union in Hq as [Hq|Hq].
  - apply elem_of_singleton in Hq. subst q. exact Hnone.
  - apply Hwf, Hq.
Qed.

Lemma writable_settled files dir disk :
  wellFormed disk ->
  writable files dir disk ->
  settled files dir (finalDisk files dir disk).
Proof.
  revert disk. induction files as [|f files IH]; intros disk Hwf Hw; simpl.
  - split; [exact Hwf|]. intros f [].
  - destruct Hw as (Hnone & Hfree & Hrest).
    pose proof (wellFormed_step disk _ _ (content f) Hwf Hnone Hfree) as Hwf'.
    destruct (IH _ Hwf' Hrest) as [Hwf'' Hall].
    split; [exact Hwf''|]. intros g [<-|Hg]; [|apply Hall, Hg].
    split.
    + apply finalDisk_dirs_mono. simpl. apply elem_of_union. left.
      apply elem_of_singleton. reflexivity.
    + rewrite finalDisk_files. apply written_keeps. simpl.
      rewrite lookup_insert_eq. eauto.
Qed.

Lemma settled_writable files dir disk :
  settled files dir disk ->
  writable files dir disk
  /\ finalDisk files dir disk = mkFS (written files dir (fs_files disk)) (fs_dirs disk).
Proof.
  revert disk. induction files as [|f files IH]; intros disk [Hwf Hall]; simpl.
  - split; [exact I|]. destruct disk; reflexivity.
  - destruct (Hall f (or_introl eq_refl)) as [Hdir Hfile].
    assert (Hfree : target dir f ∉ fs_dirs disk).
    { intros Hin. apply Hwf in Hin. rewrite Hin in Hfile. destruct Hfile; discriminate. }
    assert (Hdirs : {[dirname (target dir f)]} ∪ fs_dirs disk = fs_dirs disk).
    { apply subseteq_union_1_L. apply singleton_subseteq_l. exact Hdir. }
    rewrite Hdirs.
    assert (Hnext : settled files dir
                      (mkFS (<[target dir f := content f]> (fs_files disk)) (fs_dirs disk))).
    { split.
      - intros q Hq. simpl in *.
        assert (q <> target dir f) by (intros ->; contradiction).
        rewrite lookup_insert_ne by congruence. apply Hwf, Hq.
      - intros g Hg. destruct (Hall g (or_intror Hg)) as [Hd Hf]. simpl. split; [exact Hd|].
        apply lookup_insert_is_Some.
        destruct (decide (target dir f = target dir g)); [left; assumption|right; auto]. }
    destruct (IH _ Hnext) as [Hw Hfinal].
    split; [|exact Hfinal]. split; [apply Hwf, Hdir|]. split; [|exact Hw].
    intros Hin. apply Hfree. exact Hin.
Qed.

Lemma written_twice files dir m :
  written files dir (written files dir m) = written files dir m.
Proof.
  apply map_eq. intros q.
  destruct (decide (Exists (fun f => target dir f = q) files)) as [Hex|Hno].
  - apply Exists_exists in Hex as (f & Hf & Hq). apply list_elem_of_In in Hf.
    destruct (written_path files dir q) as (g & _ & _ & Hm); [eauto|].
    rewrite !Hm. reflexivity.
  - apply written_elsewhere. intros f Hf Hq. apply Hno. apply Exists_exists.
    exists f. split; [apply list_elem_of_In, Hf | exact Hq].
Qed.

Lemma writeGeneratedFiles_rerun files dir w w1 :
  wellFormed (fs w) ->
  writeGeneratedFiles files dir w = (Ok tt, w1) ->
  forall v, fs v = fs w1 ->
    exists w2, writeGeneratedFiles files dir v = (Ok tt, w2) /\ fs w2 = fs w1.
Proof.
  intros Hwf Hrun v Hv. unfold writeGeneratedFiles, bind in Hrun.
  destruct (ensureDirectoryExists dir w) as [[[]|e] w0] eqn:Hdir; [|discriminate].
  apply ensureDirectoryExists_inv in Hdir as [Hnone ->].
  apply writeEach_writable in Hrun as [Hw Hfinal]. cbn [fs] in Hw, Hfinal.
  set (disk0 := mkFS (fs_files (fs w)) ({[dir]} ∪ fs_dirs (fs w))) in *.
  assert (Hwf0 : wellFormed disk0).
  { intros q Hq. simpl in *. apply elem_of_union in Hq as [Hq|Hq].
    - apply elem_of_singleton in Hq. subst q. exact Hnone.
    - apply Hwf, Hq. }
  pose proof (writable_settled files dir disk0 Hwf0 Hw) as Hsettled.
  rewrite <- Hfinal in Hsettled.
  destruct (settled_writable files dir (fs w1) Hsettled) as [Hw1 Hfinal1].
  assert (Hdir1 : dir ∈ fs_dirs (fs w1)).
  { rewrite Hfinal. apply finalDisk_dirs_mono. simpl. apply elem_of_union. left.
    apply elem_of_singleton. reflexivity. }
  assert (Hnone1 : fs_files (fs w1) !! dir = None) by (apply Hsettled, Hdir1).
  unfold writeGeneratedFiles, bind.
  rewrite fs_mkdir_ok by (rewrite Hv; exact Hnone1).
  assert (Hsame : mkFS (fs_files (fs v)) ({[dir]} ∪ fs_dirs (fs v)) = fs w1).
  { rewrite Hv. destruct (fs w1) as [fl ds] eqn:E. simpl in *. f_equal.
    apply subseteq_union_1_L. apply singleton_subseteq_l. exact Hdir1. }
  destruct (writable_writeEach files dir
              (mkWorld (mkFS (fs_files (fs v)) ({[dir]} ∪ fs_dirs (fs v))) (console v)))
    as (w2 & Hrun2 & Hfs2).
  { cbn [fs]. rewrite Hsame. exact Hw1. }
  exists w2. split; [exact Hrun2|].
  rewrite Hfs2. cbn [fs]. rewrite Hsame, Hfinal1.
  rewrite Hfinal, finalDisk_files, written_twice.
  rewrite <- finalDisk_files.
  destruct (finalDisk files dir disk0); reflexivity.
Qed.

(** X12.  After [writeGeneratedFiles] has returned normally on a well-formed
    disk, running it again with the same artifacts, on that disk, returns
    normally again and leaves the disk exactly as it found it. *)
Theorem writeGeneratedFiles_again files dir w w1 :
  wellFormed (fs w) ->
  writeGeneratedFiles files dir w = (Ok tt, w1) ->
  forall v, fs v = fs w1 ->
    exists w2, writeGeneratedFiles files dir v = (Ok tt, w2) /\ fs w2 = fs w1.
Proof.
  exact (writeGeneratedFiles_rerun files dir w w1).
Qed.

Lemma writeGeneratedFiles_again_witness :
  exists w2,
    writeGeneratedFiles [typesArtifact; workerArtifact] "generated"
      (snd (writeGeneratedFiles [typesArtifact; workerArtifact] "generated" freshDisk))
    = (Ok tt, w2)
    /\ fs w2
       = fs (snd (writeGeneratedFiles [typesArtifact; workerArtifact] "generated" freshDisk)).
Proof.
  apply (writeGeneratedFiles_again [typesArtifact; workerArtifact] "generated" freshDisk
           (snd (writeGeneratedFiles [typesArtifact; workerArtifact] "generated" freshDisk))).
  - intros q Hq. apply elem_of_empty in Hq. destruct Hq.
  - vm_compute. reflexivity.
  - reflexivity.
Defined.

(** ** More on the parser and the pipeline *)

Section PipelineMore.

Variable yaml_load : string -> result JsValue.
Variable generateTypes : JsValue -> result GeneratedFile.
Variable generateStubs : JsValue -> Config -> result (list GeneratedFile).

(** X14.  [parseOpenApiYaml] changes nothing, and it has two outcomes only: it
    returns the value loaded from the file, which then is truthy and has a
    truthy [openapi] member, or it throws a plain [Error] whose message
    starts with [Failed to parse OpenAPI YAML file: ], whatever went wrong
    (a missing file, a directory, a YAML syntax error, a rejected
    document): the kind of the original error is not kept. *)
Theorem parseOpenApiYaml_outcomes p w :
  snd (parseOpenApiYaml yaml_load p w) = w
  /\ match fst (parseOpenApiYaml yaml_load p w) with
     | Ok doc =>
         truthy doc = true
         /\ truthy (getProp doc "openapi") = true
         /\ exists contents,
              fs_files (fs w) !! p = Some contents /\ yaml_load contents = Ok doc
     | Err e =>
         kind e = PlainError
         /\ exists cause, message e = "Failed to parse OpenAPI YAML file: " ++ cause
     end.
Proof.
  unfold parseOpenApiYaml, fs_readFile. unfold_eff.
  destruct (fs_files (fs w) !! p) as [contents|] eqn:Hfile.
  - destruct (yaml_load contents) as [doc|e] eqn:Hload.
    + destruct (truthy doc) eqn:Hdoc; cbn [negb orb].
      * destruct (truthy (getProp doc "openapi")) eqn:Hopenapi; cbn [negb fst snd].
        -- repeat split; eauto.
        -- repeat split; eauto.
      * cbn [fst snd]. repeat split; eauto.
    + cbn [fst snd]. repeat split; eauto.
  - destruct (decide (p ∈ fs_dirs (fs w))); cbn [fst snd]; repeat split; eauto.
Qed.

(** The whole of [generateFromYaml], outcome by outcome. *)
Lemma generateFromYaml_run config p w :
  generateFromYaml yaml_load generateTypes generateStubs config p w
  = match parsed yaml_load p (fs w) with
    | Err e => (Err e, mkWorld (fs w) (app (console w) [parsingLine p; failureLine e]))
    | Ok spec =>
        match generateTypes spec with
        | Err e =>
            (Err e, mkWorld (fs w) (app (console w) [parsingLine p; typesLine; failureLine e]))
        | Ok typesFile =>
            match generateStubs spec config with
            | Err e =>
                (Err e,
                 mkWorld (fs w)
                   (app (console w) [parsingLine p; typesLine; stubsLine; failureLine e]))
            | Ok stubFiles =>
                match writeGeneratedFiles (typesFile :: stubFiles) (outputDir config)
                        (mkWorld (fs w) (app (console w) [parsingLine p; typesLine; stubsLine]))
                with
                | (Ok _, w') =>
                    (Ok (typesFile :: stubFiles),
                     mkWorld (fs w')
                       (app (console w') [successLine config (typesFile :: stubFiles)]))
                | (Err e, w') =>
                    (Err e, mkWorld (fs w') (app (console w') [failureLine e]))
                end
            end
        end
    end.
Proof.
  unfold generateFromYaml. unfold_eff. rewrite parseOpenApiYaml_pure. cbn [fs console].
  unfold parsingLine, typesLine, stubsLine, successLine, failureLine.
  destruct (parsed yaml_load p (fs w)) as [spec|e].
  - destruct (generateTypes spec) as [typesFile|e].
    + destruct (generateStubs spec config) as [stubFiles|e].
      * rewrite <- !app_assoc. cbn [app].
        destruct (writeGeneratedFiles _ _ _) as [[[]|e] w']; reflexivity.
      * cbn [fs console]. rewrite <- !app_assoc. reflexivity.
    + cbn [fs console]. rewrite <- !app_assoc. reflexivity.
  - cbn [fs console]. rewrite <- !app_assoc. reflexivity.
Qed.

Lemma generateFromYaml_lines config p w :
  match fst (generateFromYaml yaml_load generateTypes generateStubs config p w) with
  | Ok files =>
      console (snd (generateFromYaml yaml_load generateTypes generateStubs config p w))
      = app (console w)
          (app [parsingLine p; typesLine; stubsLine]
             (app (map generatedLine files) [successLine config files]))
  | Err e =>
      exists between,
        console (snd (generateFromYaml yaml_load generateTypes generateStubs config p w))
        = app (console w) (parsingLine p :: app between [failureLine e])
  end.
Proof.
  rewrite generateFromYaml_run.
  destruct (parsed yaml_load p (fs w)) as [spec|e]; [|exists []; reflexivity].
  destruct (generateTypes spec) as [typesFile|e]; [|exists [typesLine]; reflexivity].
  destruct (generateStubs spec config) as [stubFiles|e];
    [|exists [typesLine; stubsLine]; reflexivity].
  destruct (writeGeneratedFiles_front (typesFile :: stubFiles) (outputDir config)
              (mkWorld (fs w) (app (console w) [parsingLine p; typesLine; stubsLine])))
    as (done & rest & Hsplit & _ & Hcons & Hok).
  destruct (writeGeneratedFiles _ _ _) as [[[]|e] w'].
  - cbn [fst snd console] in *. rewrite (Hok eq_refl), app_nil_r in Hsplit. subst done.
    rewrite Hcons. cbn [console]. rewrite <- !app_assoc. reflexivity.
  - cbn [fst snd console] in *. exists (app [typesLine; stubsLine] (map generatedLine done)).
    rewrite Hcons. cbn [console]. rewrite <- !app_assoc. reflexivity.
Qed.

(** X15.  What a run prints.  A run that returns its artifacts has printed the
    parsing line, the two generation lines, one [Generated:] line for each
    artifact, in order, and the success line with their number; a run that
    throws has printed the parsing line first and, last, the failure line
    with the message of the error it throws. *)
Theorem generateFromYaml_console config p w :
  match fst (generateFromYaml yaml_load generateTypes generateStubs config p w) with
  | Ok files =>
      console (snd (generateFromYaml yaml_load generateTypes generateStubs config p w))
      = app (console w)
          (app [parsingLine p; typesLine; stubsLine]
             (app (map generatedLine files) [successLine config files]))
  | Err e =>
      exists between,
        console (snd (generateFromYaml yaml_load generateTypes generateStubs config p w))
        = app (console w) (parsingLine p :: app between [failureLine e])
  end.
Proof.
  exact (generateFromYaml_lines config p w).
Qed.

(** X16.  Generating again.  After a run that returned its artifacts on a
    well-formed disk, a second run from the disk the first one left, with
    the input file still holding the same bytes, returns the same artifacts
    and leaves that disk exactly as it is. *)
Theorem generateFromYaml_again config p contents w files w1 :
  wellFormed (fs w) ->
  fs_files (fs w) !! p = Some contents ->
  generateFromYaml yaml_load generateTypes generateStubs config p w = (Ok files, w1) ->
  fs_files (fs w1) !! p = Some contents ->
  exists w2,
    generateFromYaml yaml_load generateTypes generateStubs config p w1 = (Ok files, w2)
    /\ fs w2 = fs w1.
Proof.
  intros Hwf Hfile Hrun Hkept.
  rewrite generateFromYaml_run in Hrun. rewrite generateFromYaml_run.
  rewrite (parsed_contents yaml_load p (fs w) contents Hfile) in Hrun.
  rewrite (parsed_contents yaml_load p (fs w1) contents Hkept).
  destruct (checkContents yaml_load contents) as [spec|e]; [|discriminate].
  destruct (generateTypes spec) as [typesFile|e]; [|discriminate].
  destruct (generateStubs spec config) as [stubFiles|e]; [|discriminate].
  destruct (writeGeneratedFiles (typesFile :: stubFiles) (outputDir config)
              (mkWorld (fs w) (app (console w) [parsingLine p; typesLine; stubsLine])))
    as [[[]|e] u1] eqn:Hw; [|discriminate].
  injection Hrun as <- <-. cbn [fs].
  destruct (writeGeneratedFiles_rerun (typesFile :: stubFiles) (outputDir config)
              (mkWorld (fs w) (app (console w) [parsingLine p; typesLine; stubsLine]))
              u1 Hwf Hw
              (mkWorld (fs u1)
                 (app (app (console u1) [successLine config (typesFile :: stubFiles)])
                    [parsingLine p; typesLine; stubsLine])) eq_refl)
    as (w2 & Hw2 & Hfs2).
  cbn [console]. rewrite Hw2. eexists. split; [reflexivity|]. exact Hfs2.
Qed.

End PipelineMore.

Lemma generateFromYaml_again_witness :
  exists w2,
    generateFromYaml (loadsTo minimalDocument) emitsTypes emitsWorker outConfig "api.yaml"
      (snd (generateFromYaml (loadsTo minimalDocument) emitsTypes emitsWorker
              outConfig "api.yaml" freshDisk))
    = (Ok [typesArtifact; workerArtifact], w2)
    /\ fs w2
       = fs (snd (generateFromYaml (loadsTo minimalDocument) emitsTypes emitsWorker
                    outConfig "api.yaml" freshDisk)).
Proof.
  apply (generateFromYaml_again (loadsTo minimalDocument) emitsTypes emitsWorker
           outConfig "api.yaml" "openapi: 3.0.0" freshDisk).
  - intros q Hq. apply elem_of_empty in Hq. destruct Hq.
  - reflexivity.
  - vm_compute. reflexivity.
  - vm_compute. reflexivity.
Defined.

(** ** More on [enhanceWithAI] and its helpers *)

Section FindOperation.
Import OpenAPI Enhance.

Lemma findInMethods_first pathItem p wanted ms :
  match findInMethods pathItem p wanted ms with
  | Some r =>
      exists earlier later,
        ms = app earlier (found_method r :: later)
        /\ found_path r = p
        /\ operationAt pathItem (found_method r) = Some (found r)
        /\ operationId (found r) = Some wanted
        /\ (forall m, In m earlier -> declaresAt pathItem m wanted = false)
  | None => forall m, In m ms -> declaresAt pathItem m wanted = false
  end.
Proof.
  induction ms as [|method ms IH]; simpl; [intros m []|].
  assert (Hskip :
    declaresAt pathItem method wanted = false ->
    match findInMethods pathItem p wanted ms with
    | Some r =>
        exists earlier later,
          method :: ms = app earlier (found_method r :: later)
          /\ found_path r = p
          /\ operationAt pathItem (found_method r) = Some (found r)
          /\ operationId (found r) = Some wanted
          /\ (forall m, In m earlier -> declaresAt pathItem m wanted = false)
    | None => forall m, method = m \/ In m ms -> declaresAt pathItem m wanted = false
    end).
  { intros Hno. destruct (findInMethods pathItem p wanted ms) as [r|].
    - destruct IH as (earlier & later & -> & Hp & Hat & Hid & Hearlier).
      exists (method :: earlier), later. repeat split; try assumption.
      intros m [<-|Hm]; [exact Hno | apply Hearlier, Hm].
    - intros m [<-|Hm]; [exact Hno | apply IH, Hm]. }
  unfold declaresAt in Hskip at 1.
  destruct (operationAt pathItem method) as [operation|] eqn:Hop; [|apply Hskip; reflexivity].
  destruct (operationId operation) as [oid|] eqn:Hoid; [|apply Hskip; reflexivity].
  destruct (String.eqb oid wanted) eqn:Heq; [|apply Hskip; reflexivity].
  apply String.eqb_eq in Heq. subst oid.
  exists [], ms. cbn [found found_path found_method app]. repeat split; try assumption.
  intros m [].
Qed.


End FindOperation.

Section EnhanceWithAIMore.
Import Enhance.


Variable fetch : FetchRequest -> result FetchResponse.

(** X19.  Every fallback is announced: a run of [enhanceWithAI] either prints
    nothing, and then a key is configured and what it returns is what
    [callAIAPI] returned, or it prints exactly one line, a warning, and
    returns the placeholder stub of the operation. *)
Theorem enhanceWithAI_warns config spec operationId w :
  (snd (enhanceWithAI fetch config spec operationId w) = w
   /\ keyMissing config = false
   /\ exists code,
        callAIAPI fetch config (buildAIPrompt spec operationId) = Ok code
        /\ fst (enhanceWithAI fetch config spec operationId w) = Ok code)
  \/ (fst (enhanceWithAI fetch config spec operationId w)
      = Ok (JStr (generateBasicStub operationId))
      /\ fs (snd (enhanceWithAI fetch config spec operationId w)) = fs w
      /\ exists text,
           console (snd (enhanceWithAI fetch config spec operationId w))
           = app (console w) [(WarnLevel, text)]).
Proof.
  destruct (keyMissing config) eqn:Hkey.
  - right. rewrite (enhanceWithAI_without_key _ _ _ _ _ Hkey). cbn [fst snd fs console].
    eauto.
  - rewrite (enhanceWithAI_with_key _ _ _ _ _ Hkey).
    destruct (callAIAPI fetch config (buildAIPrompt spec operationId)) as [code|e].
    + left. cbn [fst snd]. eauto.
    + right. cbn [fst snd fs console]. unfold failureWarning. eauto.
Qed.

(** X20.  With a key configured, when the call completes with a 2xx status and a
    JSON body in which [choices[0].message.content] is truthy,
    [enhanceWithAI] returns that content as it is, whatever it is: it is
    not checked to be a string, let alone code, and nothing is printed. *)
Theorem enhanceWithAI_returns_content config spec operationId w response data :
  keyMissing config = false ->
  fetch (chatCompletionsRequest config (buildAIPrompt spec operationId)) = Ok response ->
  ok response = true ->
  json response = Ok data ->
  nullish data = false ->
  truthy (contentOf data) = true ->
  enhanceWithAI fetch config spec operationId w = (Ok (contentOf data), w).
Proof.
  intros Hkey Hfetch Hok Hjson Hnull Hcontent.
  rewrite (enhanceWithAI_with_key _ _ _ _ _ Hkey).
  rewrite (callAIAPI_on_json _ _ _ _ _ Hfetch Hok Hjson Hnull), Hcontent.
  reflexivity.
Qed.

End EnhanceWithAIMore.

Lemma enhanceWithAI_returns_content_witness :
  Enhance.enhanceWithAI (answering (Ok (completion (JNum (Finite 42)))))
    keyedConfig emptySpec "listModels" emptyWorld
  = (Ok (JNum (Finite 42)), emptyWorld).
Proof.
  apply (enhanceWithAI_returns_content (answering (Ok (completion (JNum (Finite 42)))))
           keyedConfig emptySpec "listModels" emptyWorld
           (Enhance.mkFetchResponse 200 "OK" (Ok (completion (JNum (Finite 42)))))
           (completion (JNum (Finite 42)))); reflexivity.
Defined.

(** ** The configuration and the command line *)

Section CommandLine.
Import Cli.

Lemma field_or_nonempty x fallback :
  fallback <> EmptyString -> Enhance.field_or x fallback <> EmptyString.
Proof.
  intros Hf. unfold Enhance.field_or, str_or. destruct x as [s|]; [|exact Hf].
  destruct (String.eqb s "") eqn:E; [exact Hf|].
  intros ->. discriminate.
Qed.

(** X21.  The configuration read from the environment.  The worker flag is
    [true] whatever [GENERATE_CF_WORKER] says; no field is ever the empty
    string; the key counts as configured exactly when [API_KEY] is set to a
    non-empty value other than the placeholder, and the banner of [main]
    says [Enabled] in exactly that case. *)
Theorem defaultConfig_fallbacks (env : ProcessEnv) :
  generateCloudflareWorker (defaultConfig env) = true
  /\ apiUrl (defaultConfig env) <> EmptyString
  /\ apiKey (defaultConfig env) <> EmptyString
  /\ outputDir (defaultConfig env) <> EmptyString
  /\ (keyMissing (defaultConfig env) = false
      <-> exists key, env "API_KEY" = Some key
                      /\ key <> EmptyString /\ key <> "your-api-key-here")
  /\ aiEnhancement (defaultConfig env)
     = if keyMissing (defaultConfig env) then "❌ Disabled" else "✅ Enabled".
Proof.
  split; [apply orb_true_r|].
  split; [apply field_or_nonempty; discriminate|].
  split; [apply field_or_nonempty; discriminate|].
  split; [apply field_or_nonempty; discriminate|].
  unfold keyMissing, aiEnhancement, defaultConfig. cbn [apiKey].
  unfold Enhance.field_or, str_or.
  destruct (env "API_KEY") as [key|].
  - destruct (String.eqb key "") eqn:Hempty.
    + apply String.eqb_eq in Hempty. subst key. cbn. split; [|reflexivity].
      split; [discriminate|]. intros (key & [= <-] & Hne & _). contradiction.
    + rewrite Hempty. cbn [orb].
      destruct (String.eqb key "your-api-key-here") eqn:Hph; cbn [negb].
      * apply String.eqb_eq in Hph. split; [|reflexivity].
        split; [discriminate|]. intros (key' & [= <-] & _ & Hne). contradiction.
      * split; [|reflexivity]. split; [|reflexivity]. intros _. exists key.
        split; [reflexivity|]. split.
        -- intros ->. discriminate.
        -- intros ->. discriminate.
  - cbn. split; [|reflexivity]. split; [discriminate|]. intros (key & [=] & _).
Qed.

Variable yaml_load : string -> result JsValue.
Variable generateTypes : JsValue -> result GeneratedFile.
Variable generateStubs : JsValue -> Config -> result (list GeneratedFile).
Variable resolve : string -> string.

Lemma printEach_run files w :
  printEach files w = (Ok tt, mkWorld (fs w) (app (console w) (map listedLine files))).
Proof.
  revert w. induction files as [|f files IH]; intros w; simpl.
  - unfold ret. rewrite app_nil_r. destruct w; reflexivity.
  - unfold bind, console_log, console_print. rewrite IH. cbn [fs console].
    rewrite <- app_assoc. reflexivity.
Qed.

(** [main], outcome by outcome of the generator. *)
Lemma main_run env arg rest w :
  main yaml_load generateTypes generateStubs resolve env (arg :: rest) w
  = match generateFromYaml yaml_load generateTypes generateStubs (config env) (resolve arg)
            (announced env (resolve arg) w)
    with
    | (Ok files, w1) => (Ok Returned, mkWorld (fs w1) (app (console w1) (report files)))
    | (Err e, w1) => (Ok (Exited 1), mkWorld (fs w1) (app (console w1) [errorLine e]))
    end.
Proof.
  unfold main, announced, banner.
  unfold try_catch, bind, console_log, console_error, console_print, ret.
  cbn [fs console]. rewrite <- !app_assoc. cbn [app].
  destruct (generateFromYaml _ _ _ _ _ _) as [[files|e] w1]; [|reflexivity].
  cbn [fs console]. rewrite printEach_run. cbn [fs console]. unfold report.
  rewrite <- !app_assoc. reflexivity.
Qed.

(** X22.  How [main] ends.  It never throws.  Without arguments it prints the
    usage text, touches nothing and exits with code 1.  With arguments it
    looks at the first only, does to the disk what [generateFromYaml] does
    for the configuration of the environment and the resolved path, and
    returns when the generator returned, or exits with code 1 when the
    generator threw. *)
Theorem main_ends env w :
  main yaml_load generateTypes generateStubs resolve env [] w
  = (Ok (Exited 1), mkWorld (fs w) (app (console w) [(LogLevel, usage)]))
  /\ forall arg rest,
       main yaml_load generateTypes generateStubs resolve env (arg :: rest) w
       = main yaml_load generateTypes generateStubs resolve env [arg] w
       /\ fs (snd (main yaml_load generateTypes generateStubs resolve env (arg :: rest) w))
          = fs (snd (generateFromYaml yaml_load generateTypes generateStubs
                       (defaultConfig env) (resolve arg) (announced env (resolve arg) w)))
       /\ fst (main yaml_load generateTypes generateStubs resolve env (arg :: rest) w)
          = match fst (generateFromYaml yaml_load generateTypes generateStubs
                         (defaultConfig env) (resolve arg) (announced env (resolve arg) w))
            with
            | Ok _ => Ok Returned
            | Err _ => Ok (Exited 1)
            end.
Proof.
  split; [reflexivity|]. intros arg rest. rewrite !main_run. unfold config.
  split; [reflexivity|].
  destruct (generateFromYaml _ _ _ _ _ _) as [[files|e] w1]; split; reflexivity.
Qed.

(** X23.  What a run of the command line leaves on the console.  After the
    banner come the lines of the generator; on success every artifact is
    then listed a second time, in [main]'s report; on failure the message
    of the error is printed twice, by the generator and by [main], and
    these two error lines are the last. *)
Theorem main_console env arg rest w :
  match fst (generateFromYaml yaml_load generateTypes generateStubs
               (defaultConfig env) (resolve arg) (announced env (resolve arg) w))
  with
  | Ok files =>
      console (snd (main yaml_load generateTypes generateStubs resolve env (arg :: rest) w))
      = app (console w)
          (app (banner env (resolve arg))
             (app [parsingLine (resolve arg); typesLine; stubsLine]
                (app (map generatedLine files)
                   (successLine (defaultConfig env) files :: report files))))
  | Err e =>
      exists between,
        console (snd (main yaml_load generateTypes generateStubs resolve env (arg :: rest) w))
        = app (console w)
            (app (banner env (resolve arg))
               (parsingLine (resolve arg) :: app between [failureLine e; errorLine e]))
  end.
Proof.
  rewrite main_run. unfold config.
  pose proof (generateFromYaml_lines yaml_load generateTypes generateStubs
                (defaultConfig env) (resolve arg) (announced env (resolve arg) w)) as Hlines.
  destruct (generateFromYaml _ _ _ _ _ _) as [[files|e] w1]; cbn [fst snd console] in *.
  - rewrite Hlines. unfold announced. cbn [console]. rewrite <- !app_assoc. reflexivity.
  - destruct Hlines as [between ->]. exists between. unfold announced. cbn [console].
    rewrite <- !app_assoc. cbn [app]. rewrite <- !app_assoc. reflexivity.
Qed.

End CommandLine.

(** ** The gates of the example worker *)

Section Gates.
Import Http WorkerGates.

Lemma strip_prefix_inv (p s rest : string) :
  strip_prefix p s = Some rest -> s = p ++ rest.
Proof.
  revert s. induction p as [|c p IH]; intros s; simpl.
  - intros [= ->]. reflexivity.
  - destruct s as [|d s]; [discriminate|].
    destruct (Ascii.eqb c d) eqn:E; [|discriminate].
    apply Ascii.eqb_eq in E. subst d. intros H. rewrite (IH s H). reflexivity.
Qed.

Lemma includes_In xs x : includes xs x = true <-> In x xs.
Proof.
  unfold includes. rewrite existsb_exists. split.
  - intros (y & Hy & Heq). apply String.eqb_eq in Heq. subst y. exact Hy.
  - intros Hx. exists x. split; [exact Hx | apply String.eqb_refl].
Qed.

(** X24.  [validateAuth] lets a request pass exactly when it is for the health
    path, or carries an [Authorization] header of the form [Bearer <token>]
    with a non-empty token while the worker has a non-empty [API_KEY].  The
    token is not compared with the key: any non-empty token passes.  A
    request that does not pass gets an error text, one that passes none. *)
Theorem validateAuth_passes request env :
  (valid (validateAuth request env) = true
   <-> healthPath request
       \/ exists token key,
            header request "Authorization" = Some ("Bearer " ++ token)
            /\ token <> EmptyString
            /\ API_KEY env = Some key
            /\ key <> EmptyString)
  /\ (valid (validateAuth request env) = true <-> error (validateAuth request env) = None).
Proof.
  unfold validateAuth, healthPath.
  destruct (String.eqb (pathname request) "/health") eqn:H1.
  { apply String.eqb_eq in H1. cbn. split; split; auto. }
  destruct (String.eqb (pathname request) "/health/") eqn:H2.
  { apply String.eqb_eq in H2. cbn. split; split; auto. }
  apply String.eqb_neq in H1, H2. cbn [orb].
  assert (Hno : forall text (P : Prop),
            (P -> False) ->
            (valid (mkAuth false (Some text)) = true
             <-> (pathname request = "/health" \/ pathname request = "/health/") \/ P)
            /\ (valid (mkAuth false (Some text)) = true
                <-> error (mkAuth false (Some text)) = None)).
  { intros text P HP. cbn. split; split; try discriminate.
    intros [[?|?]|?]; contradiction. }
  destruct (header request "Authorization") as [authHeader|] eqn:Hauth.
  2:{ apply Hno. intros (token & key & [=] & _). }
  destruct (String.eqb authHeader EmptyString) eqn:Hempty.
  { apply String.eqb_eq in Hempty. subst authHeader.
    apply Hno. intros (token & key & [=] & _). }
  destruct (strip_prefix "Bearer " authHeader) as [token|] eqn:Hprefix.
  2:{ apply Hno. intros (token & key & Heq & _).
      pose proof (strip_prefix_app "Bearer " token) as Hsome. congruence. }
  apply strip_prefix_inv in Hprefix. subst authHeader.
  destruct (String.eqb token EmptyString) eqn:Htoken.
  { apply String.eqb_eq in Htoken. subst token.
    apply Hno. intros (token & key & Heq & Hne & _).
    pose proof (strip_prefix_app "Bearer " token) as Htoken.
    pose proof (strip_prefix_app "Bearer " EmptyString) as Hnone.
    congruence. }
  apply String.eqb_neq in Htoken.
  destruct (API_KEY env) as [key|].
  2:{ apply Hno. intros (token' & key & _ & _ & [=] & _). }
  destruct (String.eqb key EmptyString) eqn:Hkey.
  { apply String.eqb_eq in Hkey. subst key.
    apply Hno. intros (token' & key & _ & _ & [= <-] & Hne). contradiction. }
  apply String.eqb_neq in Hkey. cbn. split; split; try reflexivity.
  intros _. right. exists token, key. auto.
Qed.

(** X25.  The [Access-Control-Allow-Origin] header of a preflight answer.  It is
    never an origin other than the caller's own: it is absent, or [*], or
    the [Origin] of the request.  Without [ALLOWED_ORIGINS] it is always
    there, so every origin is echoed back; with [ALLOWED_ORIGINS] set it is
    there exactly when [*] or the caller's origin is one of the
    comma-separated entries, compared as they stand. *)
Theorem handleCors_allow_origin request env :
  status (handleCors request env) = 204%Z
  /\ body (handleCors request env) = JUndefined
  /\ (headerOf "Access-Control-Allow-Origin" (handleCors request env) = None
      \/ headerOf "Access-Control-Allow-Origin" (handleCors request env) = Some "*"
      \/ (originOf request <> EmptyString
          /\ headerOf "Access-Control-Allow-Origin" (handleCors request env)
             = Some (originOf request)))
  /\ (originEntries env = None ->
      headerOf "Access-Control-Allow-Origin" (handleCors request env)
      = Some (str_or (originOf request) "*"))
  /\ (forall entries,
        originEntries env = Some entries ->
        (headerOf "Access-Control-Allow-Origin" (handleCors request env) <> None
         <-> In "*" entries \/ In (originOf request) entries)).
Proof.
  unfold handleCors, originEntries, headerOf. fold (originOf request).
  set (allowedOrigins := match ALLOWED_ORIGINS env with
                         | Some s => split_on "," s
                         | None => ["*"]
                         end).
  destruct (includes allowedOrigins "*" || includes allowedOrigins (originOf request))
    eqn:Hallowed; cbn.
  - split; [reflexivity|]. split; [reflexivity|]. split.
    + unfold str_or. destruct (String.eqb (originOf request) "") eqn:E; [auto|].
      right. right. split; [|reflexivity]. apply String.eqb_neq. exact E.
    + split; [reflexivity|]. intros entries Hentries. split; [|discriminate].
      intros _. apply orb_true_iff in Hallowed. subst allowedOrigins.
      destruct (ALLOWED_ORIGINS env) as [s|]; [|discriminate].
      injection Hentries as <-. rewrite !includes_In in Hallowed. exact Hallowed.
  - split; [reflexivity|]. split; [reflexivity|]. split; [auto|].
    apply orb_false_iff in Hallowed as [Hstar Horigin]. subst allowedOrigins. split.
    + intros Hnone. destruct (ALLOWED_ORIGINS env); [discriminate|].
      cbn in Hstar. discriminate.
    + intros entries Hentries. split; [contradiction|].
      destruct (ALLOWED_ORIGINS env) as [s|]; [|discriminate].
      injection Hentries as <-. rewrite <- !includes_In, Hstar, Horigin.
      intros [?|?]; discriminate.
Qed.

End Gates.

(** ** The rate limiter of the example worker *)

Section RateLimiter.
Import Http EnhancedWorker.

(** [checkRateLimit], outcome by outcome. *)
Lemma checkRateLimit_run clientIP env s :
  checkRateLimit clientIP env s
  = if match limitOf env with
       | Some l => (l <=? count (currentEntry clientIP s))%Z
       | None => false
       end
    then
      (Ok (mkRate false
             (Some (ceil_div_1000 (resetTime (currentEntry clientIP s) - nextReading s)))),
       mkState (rateLimitStore s) (clock s) (S (readings s)))
    else
      (Ok (mkRate true None),
       mkState
         (filter (fun kv => (nextReading s - 60000 <= resetTime kv.2)%Z)
            (<[rateKey clientIP (nextReading s)
               := mkEntry (count (currentEntry clientIP s) + 1)
                    (resetTime (currentEntry clientIP s))]> (rateLimitStore s)))
         (clock s) (S (readings s))).
Proof.
  unfold checkRateLimit, cleanupRateLimit, currentEntry, limitOf, rateKey, nextReading.
  unfold bind, date_now, get_store, put_store, ret. cbn [rateLimitStore clock readings].
  change (60 * 1000)%Z with 60000%Z.
  destruct (match parseInt _ with Some l => _ | None => false end); reflexivity.
Qed.


Lemma retryAfter_bounds (window now : Z) :
  (now / 60000 = window)%Z ->
  (1 <= ceil_div_1000 (window * 60000 + 60000 - now) <= 60)%Z.
Proof.
  intros Hw. unfold ceil_div_1000. Z.to_euclidean_division_equations. lia.
Qed.

Lemma repeatedly_budget clientIP env limit window n :
  limitOf env = Some limit ->
  forall s used,
    (forall i, (clock s i / 60000)%Z = window) ->
    currentEntry clientIP s = mkEntry used (window * 60000 + 60000) ->
    exists refused,
      fst (repeatedly n clientIP env s)
      = app (repeat (Ok (mkRate true None)) (Nat.min n (Z.to_nat (limit - used)))) refused
      /\ Forall refuses refused
      /\ length refused = n - Nat.min n (Z.to_nat (limit - used)).
Proof.
  intros Hlimit. induction n as [|n IH]; intros s used Hclock Hcurrent.
  { exists []. simpl. auto. }
  cbn [repeatedly]. rewrite checkRateLimit_run, Hlimit, Hcurrent. cbn [count resetTime].
  pose proof (Hclock (readings s)) as Hnow. fold (nextReading s) in Hnow.
  destruct (limit <=? used)%Z eqn:Hfull.
  - apply Z.leb_le in Hfull.
    destruct (IH (mkState (rateLimitStore s) (clock s) (S (readings s))) used)
      as (refused & Hrest & Hall & Hlen).
    { exact Hclock. }
    { unfold currentEntry, nextReading in *. cbn [rateLimitStore clock readings].
      rewrite (Hclock (S (readings s))), <- Hnow. rewrite Hnow.
      rewrite <- Hcurrent. unfold rateKey. rewrite (Hclock (S (readings s))), Hnow.
      reflexivity. }
    destruct (repeatedly n clientIP env _) as [rs s2]. cbn [fst] in *.
    replace (Z.to_nat (limit - used)) with 0 in * by lia.
    rewrite Nat.min_0_r in *. cbn [repeat app] in *. subst rs.
    eexists. split; [reflexivity|]. split.
    + constructor; [|exact Hall]. eexists. split; [reflexivity|].
      apply retryAfter_bounds, Hnow.
    + simpl. lia.
  - apply Z.leb_gt in Hfull.
    destruct (IH (mkState
                    (filter (fun kv => (nextReading s - 60000 <= resetTime kv.2)%Z)
                       (<[rateKey clientIP (nextReading s)
                          := mkEntry (used + 1) (window * 60000 + 60000)]>
                          (rateLimitStore s)))
                    (clock s) (S (readings s))) (used + 1)%Z)
      as (refused & Hrest & Hall & Hlen).
    { exact Hclock. }
    { unfold currentEntry, nextReading, rateKey in *. cbn [rateLimitStore clock readings].
      rewrite (Hclock (S (readings s))), Hnow.
      erewrite map_lookup_filter_Some_2; [reflexivity| |].
      - apply lookup_insert_eq.
      - cbn [snd resetTime]. Z.to_euclidean_division_equations. lia. }
    destruct (repeatedly n clientIP env _) as [rs s2]. cbn [fst] in *.
    replace (Z.to_nat (limit - used)) with (S (Z.to_nat (limit - (used + 1)))) by lia.
    rewrite <- Nat.succ_min_distr. cbn [repeat app]. subst rs.
    exists refused. split; [reflexivity|]. split; [exact Hall|]. simpl. lia.
Qed.


End RateLimiter.


(** ** The errors of the writer *)

Lemma writeFile_error filePath data w e w' :
  writeFile filePath data w = (Err e, w') ->
  kind e = PlainError
  /\ (exists cause, message e = "Error writing file at " ++ filePath ++ ": " ++ cause)
  /\ fs_files (fs w') = fs_files (fs w).
Proof.
  unfold writeFile. unfold try_catch, bind, throw.
  destruct (ensureDirectoryExists (dirname filePath) w) as [[[]|e0] w1] eqn:Hdir;
    apply ensureDirectoryExists_files in Hdir as [Hf _].
  - unfold fs_writeFile. destruct (decide (filePath ∈ fs_dirs (fs w1))); [|discriminate].
    intros [= <- <-]. split; [reflexivity|]. split; [eexists; reflexivity | exact Hf].
  - intros [= <- <-]. split; [reflexivity|]. split; [eexists; reflexivity | exact Hf].
Qed.

Lemma writeEach_error files dir w e w' :
  writeEach files dir w = (Err e, w') ->
  exists done f rest cause,
    files = app done (f :: rest)
    /\ fs_files (fs w') = written done dir (fs_files (fs w))
    /\ kind e = PlainError
    /\ message e = "Error writing file at " ++ target dir f ++ ": " ++ cause.
Proof.
  revert w. induction files as [|f files IH]; intros w; simpl.
  - unfold ret. discriminate.
  - unfold bind at 1.
    destruct (writeFile (dir ++ "/" ++ path f) (content f) w) as [[[]|e0] w1] eqn:Hw.
    + destruct (writeFile_cases (dir ++ "/" ++ path f) (content f) w)
        as [(w1' & Hw' & Hf & _) | (e1 & w1' & Hw' & _)]; [|congruence].
      assert (w1' = w1) by congruence. subst w1'.
      unfold bind at 1, console_log, console_print. intros Hrun.
      apply IH in Hrun as (done & g & rest & cause & -> & Hfiles & Hkind & Hmsg).
      exists (f :: done), g, rest, cause. cbn [fs] in Hfiles.
      split; [reflexivity|]. split; [|auto]. rewrite Hfiles. simpl. rewrite Hf. reflexivity.
    + intros [= <- <-]. apply writeFile_error in Hw as (Hkind & [cause Hmsg] & Hf).
      exists [], f, files, cause. simpl. auto.
Qed.



(** ** The custom worker over the router *)

Section CustomWorkerOverRouter.
Import Http EnhancedWorker UsageExamples.

Lemma routePrefix_under (segment rest : string) :
  segment <> EmptyString ->
  StubReader.string_forallb (fun c => negb (Ascii.eqb c "/")) segment = true ->
  routePrefix ("/" ++ segment ++ "/" ++ rest) = segment.
Proof.
  intros Hne Hplain. unfold routePrefix, pathSegments.
  assert (Hsplit : forall s, StubReader.string_forallb (fun c => negb (Ascii.eqb c "/")) s = true ->
            split_on "/" (s ++ "/" ++ rest) = s :: split_on "/" rest).
  { induction s as [|c s IH]; intros Hs.
    - reflexivity.
    - cbn in Hs. apply andb_true_iff in Hs as [Hc Hs].
      apply negb_true_iff in Hc.
      change (String c s ++ "/" ++ rest) with (String c (s ++ "/" ++ rest)).
      cbn [split_on]. rewrite Hc, (IH Hs).
      reflexivity. }
  change ("/" ++ segment ++ "/" ++ rest) with (String "/" (segment ++ "/" ++ rest)).
  cbn [split_on]. rewrite Ascii.eqb_refl, (Hsplit segment Hplain).
  cbn [List.filter String.eqb negb].
  destruct (String.eqb segment "") eqn:E; [apply String.eqb_eq in E; contradiction|].
  cbn [negb]. unfold str_or. rewrite E. reflexivity.
Qed.


End CustomWorkerOverRouter.
